(* ===================================================================== *)
(* quickshell-polkit-agent: a shallow embedding of the authentication     *)
(* session state machine (src/src/polkit-wrapper.{h,cpp}), the message    *)
(* validator (src/src/message-validator.cpp), the signing layer           *)
(* (src/src/security.cpp) and the IPC server's inbound pipeline, outbound *)
(* queue and rate limiter (src/src/ipc-server.cpp).                       *)
(* ===================================================================== *)

From stdpp Require Import base gmap strings list pretty sorting.
From Stdlib Require Import ZArith Ascii.

Open Scope string_scope.

(* ===================================================================== *)
(* Part 1. PolkitWrapper: sessions, signals, backend calls               *)
(* ===================================================================== *)

Module Polkit.

(** [enum class AuthenticationState] (polkit-wrapper.h). *)
Inductive AuthenticationState :=
  | IDLE | INITIATED | TRYING_FIDO | FIDO_FAILED | WAITING_FOR_PASSWORD
  | AUTHENTICATING | AUTHENTICATION_FAILED | MAX_RETRIES_EXCEEDED
  | COMPLETED | CANCELLED | ERROR.

(** [enum class AuthenticationMethod]. *)
Inductive AuthenticationMethod := NONE | FIDO | PASSWORD.

#[global] Instance AuthenticationState_eq_dec : EqDecision AuthenticationState.
Proof. solve_decision. Defined.
#[global] Instance AuthenticationMethod_eq_dec : EqDecision AuthenticationMethod.
Proof. solve_decision. Defined.

(** [MAX_AUTH_RETRIES] and [FIDO_TIMEOUT_MS] (polkit-wrapper.h). *)
Definition MAX_AUTH_RETRIES : Z := 3.
Definition FIDO_TIMEOUT_MS : Z := 15000.

(** An [AsyncResult*] handed over by the polkit daemon is an object of its
    own; we name it by an identifier. *)
Definition AsyncResultId := N.

(** [struct SessionState]. The [PolkitQt1::Agent::Session*] and
    [QTimer*] pointers are modelled by whether they are non-null. *)
Record SessionState := mkSessionState {
  state : AuthenticationState;
  method : AuthenticationMethod;
  cookie : string;
  actionId : string;
  retryCount : Z;
  nfcAttempted : bool;
  result : option AsyncResultId;
  session : bool;
  fidoTimeoutTimer : bool
}.

(** A default-constructed [SessionState] with the fields that
    [initiateAuthentication] assigns. *)
Definition newSessionState (c a : string) (r : option AsyncResultId) : SessionState :=
  {| state := IDLE; method := NONE; cookie := c; actionId := a; retryCount := 0;
     nfcAttempted := false; result := r; session := false; fidoTimeoutTimer := false |}.

Definition set_state (st : AuthenticationState) (s : SessionState) : SessionState :=
  {| state := st; method := method s; cookie := cookie s; actionId := actionId s;
     retryCount := retryCount s; nfcAttempted := nfcAttempted s; result := result s;
     session := session s; fidoTimeoutTimer := fidoTimeoutTimer s |}.
Definition set_method (m : AuthenticationMethod) (s : SessionState) : SessionState :=
  {| state := state s; method := m; cookie := cookie s; actionId := actionId s;
     retryCount := retryCount s; nfcAttempted := nfcAttempted s; result := result s;
     session := session s; fidoTimeoutTimer := fidoTimeoutTimer s |}.
Definition set_retryCount (n : Z) (s : SessionState) : SessionState :=
  {| state := state s; method := method s; cookie := cookie s; actionId := actionId s;
     retryCount := n; nfcAttempted := nfcAttempted s; result := result s;
     session := session s; fidoTimeoutTimer := fidoTimeoutTimer s |}.
Definition set_nfcAttempted (b : bool) (s : SessionState) : SessionState :=
  {| state := state s; method := method s; cookie := cookie s; actionId := actionId s;
     retryCount := retryCount s; nfcAttempted := b; result := result s;
     session := session s; fidoTimeoutTimer := fidoTimeoutTimer s |}.
Definition set_result (r : option AsyncResultId) (s : SessionState) : SessionState :=
  {| state := state s; method := method s; cookie := cookie s; actionId := actionId s;
     retryCount := retryCount s; nfcAttempted := nfcAttempted s; result := r;
     session := session s; fidoTimeoutTimer := fidoTimeoutTimer s |}.
Definition set_session (b : bool) (s : SessionState) : SessionState :=
  {| state := state s; method := method s; cookie := cookie s; actionId := actionId s;
     retryCount := retryCount s; nfcAttempted := nfcAttempted s; result := result s;
     session := b; fidoTimeoutTimer := fidoTimeoutTimer s |}.
Definition set_timer (b : bool) (s : SessionState) : SessionState :=
  {| state := state s; method := method s; cookie := cookie s; actionId := actionId s;
     retryCount := retryCount s; nfcAttempted := nfcAttempted s; result := result s;
     session := session s; fidoTimeoutTimer := b |}.

(** What the wrapper does to the outside world, in order: the Qt signals it
    emits, the calls on the PAM conversation ([Session]), on the
    [AsyncResult] and on the FIDO [QTimer]. *)
Inductive Event :=
  | EvStateChanged (c : string) (st : AuthenticationState)
  | EvMethodChanged (c : string) (m : AuthenticationMethod)
  | EvMethodFailed (c : string) (m : AuthenticationMethod) (reason : string)
  | EvAuthenticationError (c : string) (st : AuthenticationState)
      (m : AuthenticationMethod) (defaultMessage details : string)
  | EvAuthorizationError (msg : string)
  | EvAuthorizationResult (authorized : bool) (a : string)
  | EvShowPasswordRequest (a request : string) (echo : bool) (c : string)
  | EvShowAuthDialog (a iconName c : string)
  | EvSessionInitiate (c : string)
  | EvSessionSetResponse (c response : string)
  | EvSessionCancel (c : string)
  | EvResultSetError (r : AsyncResultId) (msg : string)
  | EvResultSetCompleted (r : AsyncResultId)
  | EvTimerStart (c : string)
  | EvTimerStop (c : string).

#[global] Instance Event_eq_dec : EqDecision Event.
Proof. solve_decision. Defined.

(** The wrapper's members that the claims touch: [m_sessions],
    [m_nfcReaderPresent], and the trace of what it has done. *)
Record World := mkWorld {
  m_sessions : gmap string SessionState;
  m_nfcReaderPresent : bool;
  out : list Event
}.

(** Member functions thread the object explicitly: a state monad. *)
Definition M (A : Type) : Type := World -> A * World.

#[global] Instance M_ret : MRet M := fun A a w => (a, w).
#[global] Instance M_bind : MBind M := fun A B k m w => let '(a, w') := m w in k a w'.

Definition emit (e : Event) : M unit :=
  fun w => (tt, mkWorld (m_sessions w) (m_nfcReaderPresent w) (out w ++ [e])).

(** [getSession(cookie)]: the map lookup; reading a field through the
    returned pointer later is a fresh lookup. *)
Definition getSession (c : string) : M (option SessionState) :=
  fun w => (m_sessions w !! c, w).

(** A write through [SessionState*]: the entry is updated in place. *)
Definition modifySession (c : string) (f : SessionState -> SessionState) : M unit :=
  fun w => (tt, mkWorld (alter f c (m_sessions w)) (m_nfcReaderPresent w) (out w)).

Definition putSession (c : string) (s : SessionState) : M unit :=
  fun w => (tt, mkWorld (<[c := s]> (m_sessions w)) (m_nfcReaderPresent w) (out w)).

Definition removeSession (c : string) : M unit :=
  fun w => (tt, mkWorld (delete c (m_sessions w)) (m_nfcReaderPresent w) (out w)).

Definition getNfcReaderPresent : M bool := fun w => (m_nfcReaderPresent w, w).

Definition setNfcReaderPresent (b : bool) : M unit :=
  fun w => (tt, mkWorld (m_sessions w) b (out w)).

(** [getDefaultErrorMessage(state, method)]. *)
Definition getDefaultErrorMessage (st : AuthenticationState) (m : AuthenticationMethod) : string :=
  match st with
  | MAX_RETRIES_EXCEEDED =>
      match m with
      | PASSWORD => "You reached the maximum password authentication attempts. Please try another method."
      | FIDO => "You reached the maximum security key attempts. Please try password authentication."
      | NONE => "You reached the maximum authentication attempts. Please try again later."
      end
  | AUTHENTICATION_FAILED =>
      match m with
      | PASSWORD => "Incorrect password. Please try again."
      | FIDO => "Security key authentication failed. Please try again."
      | NONE => "Authentication failed. Please try again."
      end
  | FIDO_FAILED => "Security key authentication timed out or failed. Please enter your password."
  | ERROR => "An error occurred during authentication. Please try again."
  | CANCELLED => "Authentication was cancelled."
  | IDLE | INITIATED | TRYING_FIDO | WAITING_FOR_PASSWORD | AUTHENTICATING | COMPLETED => ""
  end.

(** [QString("Retry count: %1/%2").arg(retryCount).arg(MAX_AUTH_RETRIES)]. *)
Definition retryDetails (n : Z) : string :=
  "Retry count: " ++ pretty n ++ "/" ++ pretty MAX_AUTH_RETRIES.

(** [PolkitWrapper::setState]. *)
Definition setState (c : string) (newState : AuthenticationState) : M unit :=
  ms ← getSession c;
  match ms with
  | None => mret tt
  | Some s =>
      if decide (state s = newState) then mret tt
      else modifySession c (set_state newState) ;; emit (EvStateChanged c newState)
  end.

(** [PolkitWrapper::setMethod]. *)
Definition setMethod (c : string) (m : AuthenticationMethod) : M unit :=
  ms ← getSession c;
  match ms with
  | None => mret tt
  | Some s =>
      if decide (method s = m) then mret tt
      else modifySession c (set_method m) ;; emit (EvMethodChanged c m)
  end.

(** [PolkitWrapper::startFidoTimeout]: an existing timer is stopped and
    dropped, a new single-shot timer is armed. *)
Definition startFidoTimeout (c : string) : M unit :=
  ms ← getSession c;
  match ms with
  | None => mret tt
  | Some s =>
      (if fidoTimeoutTimer s then emit (EvTimerStop c) ;; modifySession c (set_timer false)
       else mret tt) ;;
      modifySession c (set_timer true) ;;
      emit (EvTimerStart c)
  end.

(** [PolkitWrapper::cancelFidoTimeout]. *)
Definition cancelFidoTimeout (c : string) : M unit :=
  ms ← getSession c;
  match ms with
  | Some s =>
      if fidoTimeoutTimer s then emit (EvTimerStop c) ;; modifySession c (set_timer false)
      else mret tt
  | None => mret tt
  end.

(** [PolkitWrapper::onFidoTimeout]: the timer has fired; it is released,
    and the transition is taken only from [TRYING_FIDO]. *)
Definition onFidoTimeout (c : string) : M unit :=
  ms ← getSession c;
  match ms with
  | None => mret tt
  | Some s =>
      (if fidoTimeoutTimer s then modifySession c (set_timer false) else mret tt) ;;
      if decide (state s = TRYING_FIDO) then
        setState c FIDO_FAILED ;;
        emit (EvMethodFailed c FIDO "Security key timeout - no response within 15 seconds")
      else mret tt
  end.

(** [PolkitWrapper::cleanupSession]. *)
Definition cleanupSession (c : string) : M unit :=
  ms ← getSession c;
  match ms with
  | None => mret tt
  | Some _ =>
      cancelFidoTimeout c ;;
      ms1 ← getSession c;
      (match ms1 with
       | Some s1 =>
           if session s1 then emit (EvSessionCancel c) ;; modifySession c (set_session false)
           else mret tt
       | None => mret tt
       end) ;;
      ms2 ← getSession c;
      (match ms2 with
       | Some s2 =>
           match result s2 with
           | Some r =>
               (if decide (state s2 = COMPLETED) then mret tt
                else emit (EvResultSetError r "Session cleaned up") ;; emit (EvResultSetCompleted r)) ;;
               modifySession c (set_result None)
           | None => mret tt
           end
       | None => mret tt
       end) ;;
      removeSession c
  end.

(** The failure branch of the [Session::completed] handler connected in
    [initiateAuthentication] (polkit-wrapper.cpp, lines 188-212): the
    retry counter is incremented, then the lockout or the recoverable
    failure is signalled. *)
Definition recordFailure (c : string) : M unit :=
  ms ← getSession c;
  match ms with
  | None => mret tt
  | Some s =>
      let n := (retryCount s + 1)%Z in
      modifySession c (set_retryCount n) ;;
      if decide (MAX_AUTH_RETRIES <= n)%Z then
        setState c MAX_RETRIES_EXCEEDED ;;
        ms' ← getSession c;
        let m := from_option method NONE ms' in
        emit (EvAuthenticationError c MAX_RETRIES_EXCEEDED m
                (getDefaultErrorMessage MAX_RETRIES_EXCEEDED m) (retryDetails n))
      else
        setState c AUTHENTICATION_FAILED ;;
        ms' ← getSession c;
        let m := from_option method NONE ms' in
        emit (EvAuthenticationError c AUTHENTICATION_FAILED m
                (getDefaultErrorMessage AUTHENTICATION_FAILED m) (retryDetails n))
  end.

(** The completion of the [AsyncResult] in the [Session::completed]
    handler (polkit-wrapper.cpp, lines 215-225). *)
Definition completeAsyncResult (c : string) (gainedAuthorization : bool) : M unit :=
  ms ← getSession c;
  match ms with
  | Some s =>
      match result s with
      | Some r =>
          if gainedAuthorization then emit (EvResultSetCompleted r)
          else emit (EvResultSetError r "Authentication failed") ;; emit (EvResultSetCompleted r)
      | None => mret tt
      end
  | None => mret tt
  end.

(** The [Session::completed] handler (polkit-wrapper.cpp, lines 178-232). *)
Definition onCompleted (c a : string) (gainedAuthorization : bool) : M unit :=
  cancelFidoTimeout c ;;
  (if gainedAuthorization then setState c COMPLETED else recordFailure c) ;;
  completeAsyncResult c gainedAuthorization ;;
  emit (EvAuthorizationResult gainedAuthorization a) ;;
  cleanupSession c.

(** The [Session::request] handler (polkit-wrapper.cpp, lines 234-283). *)
Definition onRequest (c a request : string) (echo : bool) : M unit :=
  ms ← getSession c;
  match ms with
  | None => mret tt
  | Some s =>
      if negb (session s) then mret tt
      else if decide (state s = MAX_RETRIES_EXCEEDED) then mret tt
      else
        nfc ← getNfcReaderPresent;
        if nfc && negb (nfcAttempted s) then
          setState c TRYING_FIDO ;;
          setMethod c FIDO ;;
          modifySession c (set_nfcAttempted true) ;;
          startFidoTimeout c ;;
          emit (EvSessionSetResponse c "")
        else
          (if nfcAttempted s then
             cancelFidoTimeout c ;;
             setState c FIDO_FAILED ;;
             emit (EvMethodFailed c FIDO "FIDO authentication failed")
           else mret tt) ;;
          setState c WAITING_FOR_PASSWORD ;;
          setMethod c PASSWORD ;;
          emit (EvShowPasswordRequest a request echo c)
  end.

(** The [Session::showError] handler (polkit-wrapper.cpp, lines 285-307). *)
Definition onShowError (c a text : string) : M unit :=
  setState c ERROR ;;
  ms ← getSession c;
  (match ms with
   | Some s =>
       emit (EvAuthenticationError c ERROR (method s) (getDefaultErrorMessage ERROR (method s)) text) ;;
       match result s with
       | Some r => emit (EvResultSetError r ("Session error: " ++ text)) ;; emit (EvResultSetCompleted r)
       | None => mret tt
       end
   | None => mret tt
   end) ;;
  emit (EvAuthorizationResult false a) ;;
  cleanupSession c.

(** [PolkitWrapper::submitAuthenticationResponse]. *)
Definition submitAuthenticationResponse (c response : string) : M unit :=
  ms ← getSession c;
  match ms with
  | None => mret tt
  | Some s =>
      if negb (session s) then mret tt
      else if decide (state s = MAX_RETRIES_EXCEEDED) then
        let msg := getDefaultErrorMessage MAX_RETRIES_EXCEEDED (method s) in
        emit (EvAuthenticationError c MAX_RETRIES_EXCEEDED (method s) msg
                "User attempted to submit response after max retries") ;;
        emit (EvAuthorizationError msg)
      else
        setState c AUTHENTICATING ;;
        setMethod c PASSWORD ;;
        emit (EvSessionSetResponse c response)
  end.

(** [PolkitWrapper::initiateAuthentication]. [nfcPresent] is what
    [detectNfcReader()] returns; [hasIdentity] is [!identities.isEmpty()].
    The text shown in the dialog ([transformAuthMessage]) plays no part in
    the session logic and is left out of [EvShowAuthDialog]. *)
Definition initiateAuthentication (a iconName c : string) (hasIdentity nfcPresent : bool)
    (r : option AsyncResultId) : M unit :=
  setNfcReaderPresent nfcPresent ;;
  putSession c (newSessionState c a r) ;;
  setState c INITIATED ;;
  (if hasIdentity then
     modifySession c (set_session true) ;;
     emit (EvSessionInitiate c)
   else mret tt) ;;
  emit (EvShowAuthDialog a iconName c).

(** [cleanupSession] over a list of cookies, each first moved to
    [CANCELLED] (the loop of [cancelAuthentication]). *)
Fixpoint cancelAll (cs : list string) : M unit :=
  match cs with
  | [] => mret tt
  | c :: cs' => setState c CANCELLED ;; cleanupSession c ;; cancelAll cs'
  end.

(** [PolkitWrapper::cancelAuthentication] (Listener interface): every
    registered cookie. *)
Definition cancelAuthentication : M unit :=
  fun w => cancelAll (map fst (map_to_list (m_sessions w))) w.

(** What can happen to the wrapper: a call from the polkit daemon, a
    callback of a PAM conversation, a call from the IPC server, or a FIDO
    timer firing. *)
Inductive Input :=
  | InInitiate (a iconName c : string) (hasIdentity nfcPresent : bool) (r : option AsyncResultId)
  | InRequest (c a request : string) (echo : bool)
  | InCompleted (c a : string) (gained : bool)
  | InShowError (c a text : string)
  | InSubmit (c response : string)
  | InFidoTimeout (c : string)
  | InCancel.

Definition step (i : Input) : M unit :=
  match i with
  | InInitiate a ic c h n r => initiateAuthentication a ic c h n r
  | InRequest c a rq e => onRequest c a rq e
  | InCompleted c a g => onCompleted c a g
  | InShowError c a t => onShowError c a t
  | InSubmit c rsp => submitAuthenticationResponse c rsp
  | InFidoTimeout c => onFidoTimeout c
  | InCancel => cancelAuthentication
  end.

Definition run (is : list Input) (w : World) : World :=
  fold_left (fun w i => snd (step i w)) is w.

(** A freshly constructed wrapper. *)
Definition initialWorld : World := mkWorld ∅ false [].

Definition lookupState (c : string) (w : World) : option AuthenticationState :=
  state <$> m_sessions w !! c.

End Polkit.

(* ===================================================================== *)
(* Part 2. JSON objects as Qt holds them, and their compact serialization *)
(* ===================================================================== *)

Module Json.

(** A [QJsonValue] of the kinds the messages carry. Numbers carry their
    integer value: every number the protocol uses is a millisecond
    timestamp. *)
Inductive JValue :=
  | JNull
  | JBool (b : bool)
  | JNumber (z : Z)
  | JString (s : string).

(** A [QJsonObject]: a finite map from keys to values. *)
Abbreviation JObject := (gmap string JValue).

(** [obj[key].toString()]: the string, or the empty string. *)
Definition toString (v : option JValue) : string :=
  match v with Some (JString s) => s | _ => "" end.

(** [obj[key].toDouble()] followed by [static_cast<qint64>]: the number,
    or 0. *)
Definition toInt64 (v : option JValue) : Z :=
  match v with Some (JNumber z) => z | _ => 0%Z end.

Definition isString (v : JValue) : bool :=
  match v with JString _ => true | _ => false end.

(** [QJsonObject] iterates (and serializes) its keys in sorted order. *)
Definition key_le (a b : string * JValue) : Prop := String.compare a.1 b.1 <> Gt.
#[global] Instance key_le_dec : RelDecision key_le.
Proof. intros a b. unfold key_le. apply _. Defined.

Definition entries (o : JObject) : list (string * JValue) :=
  merge_sort key_le (map_to_list o).

Definition keys (o : JObject) : list string := map fst (entries o).

(** Bytes as integers 0..255. A character of a [string] is the code point
    U+0000..U+00FF; [toJson] writes it as UTF-8. *)
Definition utf8 (n : Z) : list Z :=
  if decide (n < 128)%Z then [n]
  else [Z.lor 192 (Z.shiftr n 6); Z.lor 128 (Z.land n 63)].

Definition hexdig (u : Z) : Z := if decide (u < 10)%Z then (48 + u)%Z else (97 + u - 10)%Z.

(** The escaping of qjsonwriter.cpp ([escapedString]). *)
Definition escapeChar (ch : ascii) : list Z :=
  let u := Z.of_N (N_of_ascii ch) in
  if decide (u = 34)%Z then [92; 34]%Z
  else if decide (u = 92)%Z then [92; 92]%Z
  else if decide (u = 8)%Z then [92; 98]%Z
  else if decide (u = 12)%Z then [92; 102]%Z
  else if decide (u = 10)%Z then [92; 110]%Z
  else if decide (u = 13)%Z then [92; 114]%Z
  else if decide (u = 9)%Z then [92; 116]%Z
  else if decide (u < 32)%Z then [92; 117; 48; 48; hexdig (Z.shiftr u 4); hexdig (Z.land u 15)]%Z
  else utf8 u.

Fixpoint bytes_of_string (s : string) : list Z :=
  match s with
  | EmptyString => []
  | String ch s' => Z.of_N (N_of_ascii ch) :: bytes_of_string s'
  end.

Fixpoint escape (s : string) : list Z :=
  match s with
  | EmptyString => []
  | String ch s' => escapeChar ch ++ escape s'
  end.

Definition quoted (s : string) : list Z := [34%Z] ++ escape s ++ [34%Z].

Definition valueBytes (v : JValue) : list Z :=
  match v with
  | JNull => bytes_of_string "null"
  | JBool true => bytes_of_string "true"
  | JBool false => bytes_of_string "false"
  | JNumber z => bytes_of_string (pretty z)
  | JString s => quoted s
  end.

Fixpoint membersBytes (es : list (string * JValue)) : list Z :=
  match es with
  | [] => []
  | [(k, v)] => quoted k ++ [58%Z] ++ valueBytes v
  | (k, v) :: es' => quoted k ++ [58%Z] ++ valueBytes v ++ [44%Z] ++ membersBytes es'
  end.

(** [QJsonDocument(obj).toJson(QJsonDocument::Compact)]. *)
Definition toJsonCompact (o : JObject) : list Z :=
  [123%Z] ++ membersBytes (entries o) ++ [125%Z].

End Json.

(* ===================================================================== *)
(* Part 3. MessageValidator (src/src/message-validator.cpp)              *)
(* ===================================================================== *)

Module Validator.
Import Json.

(** [ValidationResult]. *)
Inductive ValidationResult := success | failure (error : string).

Definition valid (r : ValidationResult) : bool :=
  match r with success => true | failure _ => false end.

Definition MAX_STRING_LENGTH : nat := 4096.
Definition MAX_ACTION_ID_LENGTH : nat := 256.
Definition MAX_COOKIE_LENGTH : nat := 128.
Definition MAX_RESPONSE_LENGTH : nat := 8192.

(** [MessageValidator::VALID_MESSAGE_TYPES]. *)
Definition VALID_MESSAGE_TYPES : list string :=
  ["check_authorization"; "cancel_authorization"; "submit_authentication"].

Definition validateMessageType (obj : JObject) : ValidationResult :=
  match obj !! "type" with
  | None => failure "Missing required field: type"
  | Some (JString t) =>
      if decide (t ∈ VALID_MESSAGE_TYPES) then success else failure ("Invalid message type: " ++ t)
  | Some _ => failure "Field 'type' must be a string"
  end.

Definition validateString (obj : JObject) (key : string) (required : bool) (maxLength : nat)
    : ValidationResult :=
  match obj !! key with
  | None => if required then failure ("Missing required field: " ++ key) else success
  | Some (JString str) =>
      if decide (maxLength < String.length str) then
        failure ("Field " ++ key ++ " exceeds maximum length of " ++ pretty (N.of_nat maxLength)
                 ++ " characters")
      else success
  | Some _ => failure ("Field " ++ key ++ " must be a string")
  end.

Fixpoint containsChar (ch : ascii) (s : string) : bool :=
  match s with
  | EmptyString => false
  | String c s' => if decide (c = ch) then true else containsChar ch s'
  end.

Definition validateCheckAuthorization (message : JObject) : ValidationResult :=
  match validateString message "action_id" true MAX_ACTION_ID_LENGTH with
  | failure e => failure e
  | success =>
      match (if decide (is_Some (message !! "details"))
             then validateString message "details" false MAX_STRING_LENGTH else success) with
      | failure e => failure e
      | success =>
          let actionId := toString (message !! "action_id") in
          if decide (actionId = "") then failure "action_id cannot be empty"
          else if negb (containsChar "." actionId) then
            failure "action_id must contain at least one dot (reverse DNS format)"
          else success
      end
  end.

(** The loop over [message.begin() .. message.end()]: the first key, in
    the object's order, that is not allowed. *)
Fixpoint firstUnexpected (allowedKeys : list string) (ks : list string) : option string :=
  match ks with
  | [] => None
  | k :: ks' => if decide (k ∈ allowedKeys) then firstUnexpected allowedKeys ks' else Some k
  end.

Definition validateCancelAuthorization (message : JObject) : ValidationResult :=
  match firstUnexpected ["type"] (keys message) with
  | Some k => failure ("Unexpected field in cancel_authorization: " ++ k)
  | None => success
  end.

(** [QChar::isLetterOrNumber] on U+0000..U+00FF (the Unicode letter and
    number categories). *)
Definition isLetterOrNumber (ch : ascii) : bool :=
  let u := N_of_ascii ch in
  bool_decide ((48 <= u <= 57)%N \/ (65 <= u <= 90)%N \/ (97 <= u <= 122)%N
               \/ u = 170%N \/ u = 178%N \/ u = 179%N \/ u = 181%N \/ u = 185%N \/ u = 186%N
               \/ (188 <= u <= 190)%N \/ (192 <= u <= 214)%N \/ (216 <= u <= 246)%N
               \/ (248 <= u <= 255)%N).

Fixpoint cookieCharsOk (s : string) : bool :=
  match s with
  | EmptyString => true
  | String c s' =>
      if isLetterOrNumber c || bool_decide (c = "-"%char) || bool_decide (c = "_"%char)
      then cookieCharsOk s' else false
  end.

Definition validateSubmitAuthentication (message : JObject) : ValidationResult :=
  match validateString message "cookie" true MAX_COOKIE_LENGTH with
  | failure e => failure e
  | success =>
      match validateString message "response" true MAX_RESPONSE_LENGTH with
      | failure e => failure e
      | success =>
          let c := toString (message !! "cookie") in
          if decide (c = "") then failure "cookie cannot be empty"
          else if cookieCharsOk c then success
          else failure "cookie contains invalid characters"
      end
  end.

(** [MessageValidator::validateMessage]. *)
Definition validateMessage (message : JObject) : ValidationResult :=
  match validateMessageType message with
  | failure e => failure e
  | success =>
      let type := toString (message !! "type") in
      if decide (type = "check_authorization") then validateCheckAuthorization message
      else if decide (type = "cancel_authorization") then validateCancelAuthorization message
      else if decide (type = "submit_authentication") then validateSubmitAuthentication message
      else failure ("Unknown message type: " ++ type)
  end.

End Validator.

(* ===================================================================== *)
(* Part 4. SecurityManager (src/src/security.cpp)                        *)
(* ===================================================================== *)

(** [QMessageAuthenticationCode(QCryptographicHash::Sha256)]: SHA-256
    (FIPS 180-4) and HMAC (RFC 2104) over bytes 0..255, words as Z modulo
    2^32. *)
Module Sha256.
Local Open Scope list_scope.

Definition w32 (x : Z) : Z := Z.land x (Z.ones 32).
Definition add32 (x y : Z) : Z := w32 (x + y).
Definition rotr (x : Z) (n : Z) : Z := w32 (Z.lor (Z.shiftr x n) (Z.shiftl x (32 - n))).

(** The constants of FIPS 180-4, sections 4.2.2 and 5.3.3: the first 32
    bits of the fractional parts of the cube roots of the first 64 primes
    (round constants) and of the square roots of the first 8 primes
    (initial hash value). *)
Definition isPrime (n : Z) : bool :=
  forallb (fun d => negb (Z.eqb (n mod d) 0)) (map Z.of_nat (seq 2 (Z.to_nat (Z.sqrt n) - 1))).

Definition primes (count : nat) : list Z :=
  firstn count (filter (fun n => isPrime n = true) (map Z.of_nat (seq 2 400))).

(** The integer cube root of [n] for [0 <= n < hi^3], by bisection:
    [lo^3 <= n < hi^3] throughout. *)
Fixpoint icbrt_aux (fuel : nat) (lo hi n : Z) : Z :=
  match fuel with
  | O => lo
  | S f =>
      if Z.leb (hi - lo) 1 then lo
      else let mid := Z.div (lo + hi) 2 in
           if Z.leb (mid * mid * mid) n then icbrt_aux f mid hi n else icbrt_aux f lo mid n
  end.

Definition icbrt (n : Z) : Z := icbrt_aux 64 0 (2 ^ 40) n.

Definition K : list Z := map (fun p => w32 (icbrt (p * 2 ^ 96))) (primes 64).

Definition H0 : list Z := map (fun p => w32 (Z.sqrt (p * 2 ^ 64))) (primes 8).

Definition sigma0 (x : Z) : Z := Z.lxor (Z.lxor (rotr x 7) (rotr x 18)) (Z.shiftr x 3).
Definition sigma1 (x : Z) : Z := Z.lxor (Z.lxor (rotr x 17) (rotr x 19)) (Z.shiftr x 10).
Definition Sigma0 (x : Z) : Z := Z.lxor (Z.lxor (rotr x 2) (rotr x 13)) (rotr x 22).
Definition Sigma1 (x : Z) : Z := Z.lxor (Z.lxor (rotr x 6) (rotr x 11)) (rotr x 25).
Definition Ch (x y z : Z) : Z := Z.lxor (Z.land x y) (Z.land (Z.lxor x (Z.ones 32)) z).
Definition Maj (x y z : Z) : Z := Z.lxor (Z.lxor (Z.land x y) (Z.land x z)) (Z.land y z).

(** Big-endian words of a byte list (a multiple of four long). *)
Fixpoint words (bs : list Z) : list Z :=
  match bs with
  | b0 :: b1 :: b2 :: b3 :: bs' =>
      (Z.lor (Z.shiftl b0 24) (Z.lor (Z.shiftl b1 16) (Z.lor (Z.shiftl b2 8) b3))) :: words bs'
  | _ => []
  end.

Definition be_bytes (nbytes : nat) (x : Z) : list Z :=
  map (fun i => Z.land (Z.shiftr x (8 * Z.of_nat (nbytes - 1 - i))) 255) (seq 0 nbytes).

(** The message schedule W0..W63, built oldest-first. *)
Fixpoint schedule (fuel : nat) (ws : list Z) : list Z :=
  match fuel with
  | O => ws
  | S f =>
      let n := length ws in
      let w t := nth (n - t) ws 0%Z in
      schedule f (ws ++ [add32 (add32 (sigma1 (w 2)) (w 7)) (add32 (sigma0 (w 15)) (w 16))])
  end.

Definition round (st : list Z) (kw : Z * Z) : list Z :=
  match st with
  | [a; b; c; d; e; f; g; h] =>
      let t1 := add32 (add32 (add32 h (Sigma1 e)) (add32 (Ch e f g) kw.1)) kw.2 in
      let t2 := add32 (Sigma0 a) (Maj a b c) in
      [add32 t1 t2; a; b; c; add32 d t1; e; f; g]
  | _ => st
  end.

Definition compress (hs : list Z) (block : list Z) : list Z :=
  let ws := schedule 48 (words block) in
  let st := fold_left round (zip K ws) hs in
  zip_with add32 hs st.

Fixpoint blocks (fuel : nat) (bs : list Z) : list (list Z) :=
  match fuel with
  | O => []
  | S f => match bs with [] => [] | _ => take 64 bs :: blocks f (drop 64 bs) end
  end.

Definition pad (msg : list Z) : list Z :=
  let l := length msg in
  let k := (119 - (l mod 64)) mod 64 in
  msg ++ [128%Z] ++ replicate k 0%Z ++ be_bytes 8 (8 * Z.of_nat l).

Definition sha256 (msg : list Z) : list Z :=
  let p := pad msg in
  concat (map (be_bytes 4) (fold_left compress (blocks (length p) p) H0)).

Definition hmac_sha256 (key msg : list Z) : list Z :=
  let k := if decide (64 < length key) then sha256 key else key in
  let k := k ++ replicate (64 - length k) 0%Z in
  sha256 (map (Z.lxor 0x5c) k ++ sha256 (map (Z.lxor 0x36) k ++ msg)).

Definition hexchar (u : Z) : ascii := ascii_of_N (Z.to_N (Json.hexdig u)).

(** [QByteArray::toHex()]: two lowercase digits per byte. *)
Fixpoint toHex (bs : list Z) : string :=
  match bs with
  | [] => EmptyString
  | b :: bs' => String (hexchar (Z.shiftr b 4)) (String (hexchar (Z.land b 15)) (toHex bs'))
  end.

End Sha256.

Module Security.
Import Json.

(** The process-wide [s_hmacKey] and [s_initialized]. *)
Record SecurityManager := mkSecurityManager {
  s_hmacKey : list Z;
  s_initialized : bool
}.

(** [SecurityManager::generateHMAC]. *)
Definition generateHMAC (sm : SecurityManager) (data : list Z) : string :=
  if s_initialized sm then Sha256.toHex (Sha256.hmac_sha256 (s_hmacKey sm) data) else "".

(** [SecurityManager::verifyHMAC]. *)
Definition verifyHMAC (sm : SecurityManager) (data : list Z) (expectedHMAC : string) : bool :=
  if s_initialized sm then bool_decide (generateHMAC sm data = expectedHMAC) else false.

Definition MAX_TIME_SKEW_MS : Z := 30000.

(** [SecurityManager::signMessage]; [now] is [getCurrentTimestamp()]. *)
Definition signMessage (sm : SecurityManager) (now : Z) (message : JObject) : JObject :=
  let signedMessage := <["timestamp" := JNumber now]> message in
  let hmac := generateHMAC sm (toJsonCompact signedMessage) in
  <["hmac" := JString hmac]> signedMessage.

(** [SecurityManager::verifyMessage]; [now] is [getCurrentTimestamp()]. *)
Definition verifyMessage (sm : SecurityManager) (now : Z) (message : JObject) : bool :=
  if negb (bool_decide (is_Some (message !! "hmac")) && bool_decide (is_Some (message !! "timestamp")))
  then false
  else
    let providedHMAC := toString (message !! "hmac") in
    let messageForVerification := delete "hmac" message in
    if negb (verifyHMAC sm (toJsonCompact messageForVerification) providedHMAC) then false
    else
      let timeDiff := (now - toInt64 (message !! "timestamp"))%Z in
      if decide (MAX_TIME_SKEW_MS < timeDiff \/ timeDiff < - MAX_TIME_SKEW_MS)%Z then false
      else true.

End Security.

(* ===================================================================== *)
(* Part 5. IPCServer (src/src/ipc-server.cpp)                            *)
(* ===================================================================== *)

Module Ipc.
Import Json Validator Security.

(** Modelled from the spec: [RATE_LIMIT_WINDOW_MS] and
    [MAX_MESSAGES_PER_SECOND] are declared in the server's header, which
    is not among the sources. The window is the spec's "sliding 1-second
    window"; the ceiling is "a fixed ceiling" of unstated value, so it is
    a parameter of the definitions below. *)
Definition RATE_LIMIT_WINDOW_MS : Z := 1000.

(** [SecurityManager::SESSION_TIMEOUT_MS] (security.h). *)
Definition SESSION_TIMEOUT_MS : Z := 300000.

(** [MAX_QUEUED_MESSAGES] in [queueMessage]. *)
Definition MAX_QUEUED_MESSAGES : nat := 50.

(** Calls into the [PolkitWrapper] slots. *)
Inductive WrapperCall :=
  | CallCheckAuthorization (actionId details : string)
  | CallCancelAuthorization
  | CallSubmitAuthenticationResponse (cookie response : string).

(** The server's members: [m_messageTimestamps], [m_sessionStartTime],
    [m_lastHeartbeat], whether [m_currentClient] is a connected socket,
    [m_pendingMessages]; and what it has done: the messages written to the
    socket, the wrapper calls, and the [disconnectFromServer] calls. *)
Record Server := mkServer {
  m_messageTimestamps : list Z;
  m_sessionStartTime : Z;
  m_lastHeartbeat : Z;
  connected : bool;
  m_pendingMessages : list JObject;
  written : list JObject;
  calls : list WrapperCall;
  disconnects : nat
}.

Definition set_timestamps (q : list Z) (st : Server) : Server :=
  mkServer q (m_sessionStartTime st) (m_lastHeartbeat st) (connected st)
    (m_pendingMessages st) (written st) (calls st) (disconnects st).
Definition set_sessionStartTime (t : Z) (st : Server) : Server :=
  mkServer (m_messageTimestamps st) t (m_lastHeartbeat st) (connected st)
    (m_pendingMessages st) (written st) (calls st) (disconnects st).
Definition set_lastHeartbeat (t : Z) (st : Server) : Server :=
  mkServer (m_messageTimestamps st) (m_sessionStartTime st) t (connected st)
    (m_pendingMessages st) (written st) (calls st) (disconnects st).
Definition set_pending (q : list JObject) (st : Server) : Server :=
  mkServer (m_messageTimestamps st) (m_sessionStartTime st) (m_lastHeartbeat st) (connected st)
    q (written st) (calls st) (disconnects st).
Definition add_written (ms : list JObject) (st : Server) : Server :=
  mkServer (m_messageTimestamps st) (m_sessionStartTime st) (m_lastHeartbeat st) (connected st)
    (m_pendingMessages st) (written st ++ ms) (calls st) (disconnects st).
Definition add_call (k : WrapperCall) (st : Server) : Server :=
  mkServer (m_messageTimestamps st) (m_sessionStartTime st) (m_lastHeartbeat st) (connected st)
    (m_pendingMessages st) (written st) (calls st ++ [k]) (disconnects st).
Definition add_disconnect (st : Server) : Server :=
  mkServer (m_messageTimestamps st) (m_sessionStartTime st) (m_lastHeartbeat st) (connected st)
    (m_pendingMessages st) (written st) (calls st) (S (disconnects st)).

(** The message types [queueMessage] refuses. *)
Definition unqueued_types : list string := ["heartbeat_ack"; "error"; "welcome"].

(** [IPCServer::queueMessage] on [m_pendingMessages] (a [QQueue]: the
    head is the oldest entry). *)
Definition queueMessage (message : JObject) (q : list JObject) : list JObject :=
  let type := toString (message !! "type") in
  if decide (type ∈ unqueued_types) then q
  else ((if decide (MAX_QUEUED_MESSAGES <= length q) then tail q else q) ++ [message])%list.

(** [IPCServer::replayQueuedMessages]: the queue is drained; the messages
    reach the socket only while it is connected. *)
Definition replayQueuedMessages (st : Server) : Server :=
  match m_pendingMessages st with
  | [] => st
  | q => set_pending [] (if connected st then add_written q st else st)
  end.

(** [IPCServer::sendMessageToClient]. *)
Definition sendMessageToClient (message : JObject) (st : Server) : Server :=
  if connected st then add_written [message] st
  else set_pending (queueMessage message (m_pendingMessages st)) st.

Definition errorMessage (error : string) : JObject :=
  <["error" := JString error]> (<["type" := JString "error"]> ∅).

(** [IPCServer::sendErrorToClient]. *)
Definition sendErrorToClient (error : string) (st : Server) : Server :=
  sendMessageToClient (errorMessage error) st.

(** The eviction loop of [checkRateLimit]: drop the head while it is older
    than the window. *)
Fixpoint evictOld (currentTime : Z) (q : list Z) : list Z :=
  match q with
  | [] => []
  | t :: q' => if decide (RATE_LIMIT_WINDOW_MS < currentTime - t)%Z then evictOld currentTime q' else q
  end.

(** [IPCServer::checkRateLimit]: the verdict and the new window. *)
Definition checkRateLimit (MAX_MESSAGES_PER_SECOND : Z) (currentTime : Z) (q : list Z)
    : bool * list Z :=
  let q1 := (q ++ [currentTime])%list in
  let q2 := evictOld currentTime q1 in
  (negb (bool_decide (MAX_MESSAGES_PER_SECOND < Z.of_nat (length q2))%Z), q2).

(** [SecurityManager::isSessionExpired]. *)
Definition isSessionExpired (now sessionStartTime : Z) : bool :=
  bool_decide (SESSION_TIMEOUT_MS < now - sessionStartTime)%Z.

(** [IPCServer::resetSessionTimeout]. *)
Definition resetSessionTimeout (now : Z) (st : Server) : Server := set_sessionStartTime now st.

(** [m_currentClient->disconnectFromServer()] behind [if (m_currentClient)]:
    [handleClientMessage] is only reached from [onClientDataReady], which
    returns early without a client, so the call is always made there. *)
Definition disconnectFromServer (st : Server) : Server := add_disconnect st.

(** The reply to a heartbeat. *)
Definition heartbeatAck (t : Z) : JObject :=
  <["timestamp" := JNumber t]> (<["type" := JString "heartbeat_ack"]> ∅).

(** The dispatch by [type] at the end of [handleClientMessage]. *)
Definition dispatch (now : Z) (message : JObject) (st : Server) : Server :=
  let type := toString (message !! "type") in
  if decide (type = "check_authorization") then
    add_call (CallCheckAuthorization (toString (message !! "action_id")) (toString (message !! "details")))
      (resetSessionTimeout now st)
  else if decide (type = "cancel_authorization") then
    add_call CallCancelAuthorization st
  else if decide (type = "submit_authentication") then
    add_call (CallSubmitAuthenticationResponse (toString (message !! "cookie")) (toString (message !! "response")))
      (resetSessionTimeout now st)
  else if decide (type = "heartbeat") then
    let st1 := set_lastHeartbeat now st in
    let st2 := resetSessionTimeout now st1 in
    sendMessageToClient (heartbeatAck (m_lastHeartbeat st2)) st2
  else sendErrorToClient ("Unknown message type: " ++ type) st.

(** [IPCServer::handleClientMessage]; [now] is the clock read during the
    call, [sm] the process-wide [SecurityManager]. *)
Definition handleClientMessage (MAX_MESSAGES_PER_SECOND : Z) (sm : SecurityManager) (now : Z)
    (message : JObject) (st : Server) : Server :=
  let '(ok, window) := checkRateLimit MAX_MESSAGES_PER_SECOND now (m_messageTimestamps st) in
  let st := set_timestamps window st in
  if negb ok then sendErrorToClient "Rate limit exceeded" st
  else if isSessionExpired now (m_sessionStartTime st) then disconnectFromServer st
  else
    match validateMessage message with
    | failure e => sendErrorToClient ("Invalid message: " ++ e) st
    | success =>
        if bool_decide (is_Some (message !! "hmac")) && negb (verifyMessage sm now message) then
          sendErrorToClient "Message authentication failed" st
        else dispatch now message st
    end.

(** What changes [m_pendingMessages]: a message sent (or queued), or a
    replay on a new connection. *)
Inductive QueueOp :=
  | QSend (message : JObject) (clientConnected : bool)
  | QReplay (clientConnected : bool).

Definition set_connected (b : bool) (st : Server) : Server :=
  mkServer (m_messageTimestamps st) (m_sessionStartTime st) (m_lastHeartbeat st) b
    (m_pendingMessages st) (written st) (calls st) (disconnects st).

Definition queueStep (st : Server) (op : QueueOp) : Server :=
  match op with
  | QSend m b => sendMessageToClient m (set_connected b st)
  | QReplay b => replayQueuedMessages (set_connected b st)
  end.

Definition runQueue (ops : list QueueOp) (st : Server) : Server := fold_left queueStep ops st.

End Ipc.

(* ===================================================================== *)
(* Part 5b. The rest of the wrapper: its queries, the IPC-facing slots    *)
(* [checkAuthorization] and [cancelAuthorization], and the text of the    *)
(* authentication dialog (src/src/polkit-wrapper.cpp)                    *)
(* ===================================================================== *)

Module PolkitExt.
Import Polkit Validator.

(** [QMap<QString, SessionState>] keeps its keys in ascending order of
    their UTF-16 code units; on U+0000..U+00FF that is [String.compare]. *)
Definition str_le (a b : string) : Prop := String.compare a b <> Gt.
#[global] Instance str_le_dec : RelDecision str_le.
Proof. intros a b. unfold str_le. apply _. Defined.

(** [m_sessions.keys()]. *)
Definition sortedKeys (m : gmap string SessionState) : list string :=
  merge_sort str_le (map fst (map_to_list m)).

(** [PolkitWrapper::authenticationState]: for the empty cookie, the state
    of the first session in key order, or [IDLE]. *)
Definition authenticationState (c : string) (w : World) : AuthenticationState :=
  if decide (c = "") then
    match sortedKeys (m_sessions w) with
    | [] => IDLE
    | k :: _ => from_option state IDLE (m_sessions w !! k)
    end
  else from_option state IDLE (m_sessions w !! c).

(** [PolkitWrapper::authenticationMethod]. *)
Definition authenticationMethod (c : string) (w : World) : AuthenticationMethod :=
  from_option method NONE (m_sessions w !! c).

(** [PolkitWrapper::hasActiveSessions]. *)
Definition hasActiveSessions (w : World) : bool :=
  negb (bool_decide (m_sessions w = ∅)).

(** [PolkitWrapper::sessionRetryCount]. *)
Definition sessionRetryCount (c : string) (w : World) : Z :=
  from_option retryCount 0%Z (m_sessions w !! c).

(** The wrapper together with [m_currentActionId] and the number of
    [m_authority->checkAuthorizationCancel()] calls it has made. *)
Record Agent := mkAgent {
  wrapper : World;
  m_currentActionId : string;
  authorityCancels : nat
}.

(** [PolkitWrapper::checkAuthorization]. [authorityError] is
    [m_authority->errorDetails()] when [m_authority->hasError()], and
    [None] otherwise. The dialog text is not part of [EvShowAuthDialog]
    (as in [initiateAuthentication]). *)
Definition checkAuthorization (authorityError : option string) (actionId details : string)
    (ag : Agent) : Agent :=
  match authorityError with
  | Some errorDetails =>
      mkAgent (snd (emit (EvAuthorizationError ("Polkit authority error: " ++ errorDetails)) (wrapper ag)))
        (m_currentActionId ag) (authorityCancels ag)
  | None =>
      mkAgent (snd (emit (EvShowAuthDialog actionId "dialog-password" "") (wrapper ag)))
        actionId (authorityCancels ag)
  end.

(** The loop of [cancelAuthorization]: a cookie is cancelled only if it is
    still registered. *)
Fixpoint cancelSessions (cs : list string) : M unit :=
  match cs with
  | [] => mret tt
  | c :: cs' =>
      ms ← getSession c;
      (match ms with
       | Some _ => setState c CANCELLED ;; cleanupSession c
       | None => mret tt
       end) ;;
      cancelSessions cs'
  end.

(** [PolkitWrapper::cancelAuthorization] on the wrapper: the keys are
    read once, before the loop. *)
Definition cancelAuthorizationM (currentActionId : string) : M unit :=
  (fun w => cancelSessions (sortedKeys (m_sessions w)) w) ;;
  emit (EvAuthorizationResult false currentActionId).

Definition cancelAuthorization (ag : Agent) : Agent :=
  mkAgent (snd (cancelAuthorizationM (m_currentActionId ag) (wrapper ag)))
    (m_currentActionId ag) (S (authorityCancels ag)).

(** [QString::split(QChar)] keeping empty parts: [""] splits into [[""]]. *)
Fixpoint splitOn (sep : ascii) (s : string) : list string :=
  match s with
  | EmptyString => [""]
  | String ch s' =>
      if decide (ch = sep) then "" :: splitOn sep s'
      else match splitOn sep s' with
           | [] => [String ch ""]
           | p :: ps => String ch p :: ps
           end
  end.

(** [if (command.contains('/')) command = command.split('/').last();] *)
Definition lastComponent (command : string) : string :=
  if containsChar "/" command then default "" (last (splitOn "/" command)) else command.

(** The loop over [args[1..]] that skips [systemd-run] options: an option
    without [=] also skips the next argument unless that one starts with
    [-]. *)
Fixpoint findTargetCommand (rest : list string) : option string :=
  match rest with
  | [] => None
  | arg :: rest' =>
      if String.prefix "--" arg || String.prefix "-" arg then
        if containsChar "=" arg then findTargetCommand rest'
        else match rest' with
             | next :: rest'' =>
                 if negb (String.prefix "-" next) then findTargetCommand rest''
                 else findTargetCommand rest'
             | [] => findTargetCommand rest'
             end
      else Some (lastComponent arg)
  end.

(** The command shown for a [/proc/PID/cmdline] split into its non-empty
    arguments ([commandInfo]; empty when there is no argument). *)
Definition extractCommand (args : list string) : string :=
  match args with
  | [] => ""
  | first :: rest =>
      let command := lastComponent first in
      if bool_decide (command = "systemd-run") || bool_decide (command = "run0") then
        match findTargetCommand rest with
        | Some target => target
        | None =>
            if decide (1 < length args) then lastComponent (default "" (last args)) else command
        end
      else command
  end.

(** [QString::toLower] on U+0000..U+00FF: A-Z and U+00C0..U+00DE except
    U+00D7 move up by 32. *)
Definition toLowerChar (ch : ascii) : ascii :=
  let u := N_of_ascii ch in
  if decide ((65 <= u <= 90)%N \/ ((192 <= u <= 222)%N /\ u <> 215%N))
  then ascii_of_N (u + 32) else ch.

Fixpoint toLower (s : string) : string :=
  match s with
  | EmptyString => EmptyString
  | String ch s' => String (toLowerChar ch) (toLower s')
  end.

(** [hay.contains(needle)]. *)
Fixpoint containsStr (needle hay : string) : bool :=
  String.prefix needle hay ||
  match hay with
  | EmptyString => false
  | String _ hay' => containsStr needle hay'
  end.

(** [message.contains(needle, Qt::CaseInsensitive)] compares case-folded
    characters. On U+0000..U+00FF folding is [toLowerChar], except for
    U+00B5, which folds outside the range; for an ASCII needle such as
    "transient" both give the same answer. *)
Definition containsCI (needle hay : string) : bool :=
  containsStr (toLower needle) (toLower hay).

(** [customTemplate.replace("%1", after)]: every occurrence, left to
    right. *)
Fixpoint replacePct1 (after s : string) : string :=
  match s with
  | EmptyString => EmptyString
  | String ch s' =>
      match s' with
      | String ch2 s'' =>
          if decide (ch = "%"%char /\ ch2 = "1"%char) then after ++ replacePct1 after s''
          else String ch (replacePct1 after s')
      | EmptyString => String ch EmptyString
      end
  end.

Section Transform.

(** [QString::arg] applied to a user-supplied template (it replaces the
    lowest-numbered [%N] marker). *)
Variable templateArg : string -> string -> string.

(** The contents of a file, decoded from UTF-8, or [None] when it cannot be
    opened. *)
Variable readFile : string -> option string.

(** [PolkitWrapper::transformAuthMessage]. [disableTransform] and
    [customTemplate] are the values of QUICKSHELL_POLKIT_DISABLE_TRANSFORM
    and QUICKSHELL_POLKIT_RUN0_MESSAGE ("" when unset); [details] maps
    detail keys to values, and [details.lookup] gives "" for a missing
    key. *)
Definition transformAuthMessage (disableTransform customTemplate actionId message : string)
    (details : gmap string string) : string :=
  if negb (bool_decide (disableTransform = "")) && negb (bool_decide (disableTransform = "0"))
     && negb (bool_decide (toLower disableTransform = "false"))
  then message
  else if decide (actionId = "org.freedesktop.systemd1.manage-units") then
    if containsCI "transient" message then
      let subjectPid := default "" (details !! "polkit.subject-pid") in
      let commandInfo :=
        if decide (subjectPid = "") then ""
        else match readFile ("/proc/" ++ subjectPid ++ "/cmdline") with
             | Some cmdlineData =>
                 extractCommand (filter (fun p => p <> "") (splitOn (ascii_of_nat 0) cmdlineData))
             | None => ""
             end in
      if negb (bool_decide (customTemplate = "")) then
        if negb (bool_decide (commandInfo = "")) && negb (bool_decide (commandInfo = actionId))
        then templateArg customTemplate commandInfo
        else replacePct1 "command" customTemplate
      else if negb (bool_decide (commandInfo = "")) && negb (bool_decide (commandInfo = actionId))
      then "Authentication required to run '" ++ commandInfo ++ "' with elevated privileges"
      else "Authentication required to run command with elevated privileges"
    else message
  else message.

End Transform.

End PolkitExt.

(** [SecurityManager::initialize]: [randomKey] is what
    [generateRandomKey(HMAC_KEY_SIZE)] returns. *)
Module SecurityExt.
Import Security.

Definition HMAC_KEY_SIZE : nat := 32.

Definition initialize (randomKey : list Z) (sm : SecurityManager) : SecurityManager :=
  if s_initialized sm then sm else mkSecurityManager randomKey true.

End SecurityExt.

(* ===================================================================== *)
(* Part 5c. The IPC server's connection handling and outbound slots      *)
(* ===================================================================== *)

Module IpcExt.
Import Json Validator Security Ipc.

(** The server with [m_currentClient] (non-null or not; whether its socket
    is in [ConnectedState] is [connected] of the [Server]) and
    [m_clientConnectionVersion]. The version is an [int] incremented once
    per accepted connection; it is counted in Z. *)
Record Conn := mkConn {
  srv : Server;
  m_currentClient : bool;
  m_clientConnectionVersion : Z
}.

Definition welcomeMessage (v : Z) : JObject :=
  <["connection_version" := JNumber v]>
    (<["message" := JString "Connected to quickshell-polkit-agent"]>
      (<["type" := JString "welcome"]> ∅)).

(** [IPCServer::onNewConnection]. [socketConnected] is the state of the
    accepted socket; [now] is the clock at the call. *)
Definition onNewConnection (now : Z) (socketConnected : bool) (cn : Conn) : Conn :=
  if m_currentClient cn then cn
  else
    let v := (m_clientConnectionVersion cn + 1)%Z in
    let st := set_connected socketConnected (srv cn) in
    let st := set_lastHeartbeat now st in
    let st := set_sessionStartTime now st in
    let st := sendMessageToClient (welcomeMessage v) st in
    mkConn (replayQueuedMessages st) true v.

(** [IPCServer::onClientDisconnected]. *)
Definition onClientDisconnected (cn : Conn) : Conn :=
  if m_currentClient cn then mkConn (set_connected false (srv cn)) false (m_clientConnectionVersion cn)
  else cn.

(** [IPCServer::onSessionTimeout]: the disconnect is requested on the
    client pointer whatever its socket state. *)
Definition onSessionTimeout (now : Z) (cn : Conn) : Conn :=
  if isSessionExpired now (m_sessionStartTime (srv cn)) && m_currentClient cn then
    mkConn (add_disconnect (sendErrorToClient "Session timeout - please reconnect" (srv cn)))
      (m_currentClient cn) (m_clientConnectionVersion cn)
  else cn.

(** The messages built by the slots connected to the wrapper's signals. *)
Definition showAuthDialogMessage (actionId message iconName cookie : string) : JObject :=
  <["cookie" := JString cookie]> (<["icon_name" := JString iconName]>
    (<["message" := JString message]> (<["action_id" := JString actionId]>
      (<["type" := JString "show_auth_dialog"]> ∅)))).

Definition authorizationResultMessage (authorized : bool) (actionId : string) : JObject :=
  <["action_id" := JString actionId]> (<["authorized" := JBool authorized]>
    (<["type" := JString "authorization_result"]> ∅)).

Definition authorizationErrorMessage (error : string) : JObject :=
  <["error" := JString error]> (<["type" := JString "authorization_error"]> ∅).

Definition passwordRequestMessage (actionId request : string) (echo : bool) (cookie : string)
    : JObject :=
  <["cookie" := JString cookie]> (<["echo" := JBool echo]>
    (<["request" := JString request]> (<["action_id" := JString actionId]>
      (<["type" := JString "password_request"]> ∅)))).

(** [IPCServer::onShowAuthDialog], [onAuthorizationResult],
    [onAuthorizationError] and [onShowPasswordRequest]. *)
Definition onShowAuthDialog (actionId message iconName cookie : string) (st : Server) : Server :=
  sendMessageToClient (showAuthDialogMessage actionId message iconName cookie) st.

Definition onAuthorizationResult (authorized : bool) (actionId : string) (st : Server) : Server :=
  sendMessageToClient (authorizationResultMessage authorized actionId) st.

Definition onAuthorizationError (error : string) (st : Server) : Server :=
  sendMessageToClient (authorizationErrorMessage error) st.

Definition onShowPasswordRequest (actionId request : string) (echo : bool) (cookie : string)
    (st : Server) : Server :=
  sendMessageToClient (passwordRequestMessage actionId request echo cookie) st.

(** A signal of the wrapper reaching one of these slots. *)
Inductive WrapperSignal :=
  | SigShowAuthDialog (actionId message iconName cookie : string)
  | SigAuthorizationResult (authorized : bool) (actionId : string)
  | SigAuthorizationError (error : string)
  | SigShowPasswordRequest (actionId request : string) (echo : bool) (cookie : string).

Definition onSignal (sg : WrapperSignal) (st : Server) : Server :=
  match sg with
  | SigShowAuthDialog a m i c => onShowAuthDialog a m i c st
  | SigAuthorizationResult b a => onAuthorizationResult b a st
  | SigAuthorizationError e => onAuthorizationError e st
  | SigShowPasswordRequest a r e c => onShowPasswordRequest a r e c st
  end.

Definition signalMessage (sg : WrapperSignal) : JObject :=
  match sg with
  | SigShowAuthDialog a m i c => showAuthDialogMessage a m i c
  | SigAuthorizationResult b a => authorizationResultMessage b a
  | SigAuthorizationError e => authorizationErrorMessage e
  | SigShowPasswordRequest a r e c => passwordRequestMessage a r e c
  end.

Definition deliverSignals (sgs : list WrapperSignal) (cn : Conn) : Conn :=
  mkConn (fold_left (fun st sg => onSignal sg st) sgs (srv cn)) (m_currentClient cn)
    (m_clientConnectionVersion cn).

End IpcExt.

(* ===================================================================== *)
(* Part 6. Properties and concrete inputs used by the facts below        *)
(* ===================================================================== *)

Module Props.
Import Polkit Json Ipc.

(** A Hoare triple over the wrapper's member functions. *)
Definition Hoare {A} (P : World -> Prop) (m : M A) (Q : World -> Prop) : Prop :=
  forall w, P w -> Q (snd (m w)).

(** Every registered session outside [ex] has a zero retry counter. *)
Definition RetryInv (ex : string -> Prop) (w : World) : Prop :=
  forall c s, m_sessions w !! c = Some s -> ~ ex c -> retryCount s = 0%Z.

(** A member function whose last step is [removeSession c]. *)
Definition Removes {A} (c : string) (m : M A) : Prop :=
  forall w, m_sessions (snd (m w)) !! c = None.

(** A member function that only appends to the trace. *)
Definition Grows {A} (m : M A) : Prop := forall w, out w `prefix_of` out (snd (m w)).

(** The outbound queue's invariant: at most [MAX_QUEUED_MESSAGES] entries,
    none of a type that [queueMessage] refuses. *)
Definition queueOk (q : list JObject) : Prop :=
  length q <= MAX_QUEUED_MESSAGES /\ Forall (fun m => toString (m !! "type") ∉ unqueued_types) q.

End Props.

Module Scenarios.
Import Polkit Json Security Ipc.

(** A password conversation with one wrong password: the daemon starts
    it, PAM prompts, the user answers, PAM reports failure. *)
Definition c1_inputs : list Input :=
  [InInitiate "org.example.retry" "dialog-password" "c1" true false (Some 7%N);
   InRequest "c1" "org.example.retry" "Password: " false;
   InSubmit "c1" "wrong";
   InCompleted "c1" "org.example.retry" false].

(** A conversation with an NFC reader present: PAM prompts, the wrapper
    tries the security key, and the user types a password before the key
    answers. *)
Definition c5_inputs : list Input :=
  [InInitiate "org.example.fido" "dialog-password" "c5" true true (Some 9%N);
   InRequest "c5" "org.example.fido" "Password: " false;
   InSubmit "c5" "hunter2"].

(** Three wrong passwords on one conversation, as the repository's
    max-retries test drives it: after each failure PAM prompts again and
    the user answers again; a fourth answer follows the third failure. *)
Definition c2_inputs : list Input :=
  c1_inputs ++
  [InRequest "c1" "org.example.retry" "Password: " false;
   InSubmit "c1" "wrong2";
   InCompleted "c1" "org.example.retry" false;
   InRequest "c1" "org.example.retry" "Password: " false;
   InSubmit "c1" "wrong3";
   InCompleted "c1" "org.example.retry" false;
   InSubmit "c1" "again"].

(** A session with two failed attempts recorded. *)
Definition lockedSession : SessionState :=
  {| state := AUTHENTICATING; method := PASSWORD; cookie := "c2"; actionId := "org.example.lock";
     retryCount := 2; nfcAttempted := false; result := Some 3%N; session := true;
     fidoTimeoutTimer := false |}.

Definition w2 : World := mkWorld {[ "c2" := lockedSession ]} false [].

(** The same session once it is in [MAX_RETRIES_EXCEEDED]. *)
Definition w2_locked : World := mkWorld {[ "c2" := set_state MAX_RETRIES_EXCEEDED lockedSession ]} false [].

(** An initialized manager with an all-zero 32-byte key. *)
Definition sm0 : SecurityManager := mkSecurityManager (repeat 0%Z 32) true.

Definition t0 : Z := 1700000000000.

Definition heartbeat0 : JObject := <["type" := JString "heartbeat"]> ∅.

Definition cancel0 : JObject := <["type" := JString "cancel_authorization"]> ∅.

Definition check0 : JObject :=
  <["action_id" := JString "org.example.check"]> (<["type" := JString "check_authorization"]> ∅).

(** A message that carries an [hmac] field before it is signed. *)
Definition withHmac0 : JObject := <["hmac" := JString "x"]> cancel0.

(** A connected client whose session started at [start]. *)
Definition server0 (start : Z) : Server := mkServer [] start start true [] [] [] 0.

End Scenarios.

(* ===================================================================== *)
(* Part 6b. Predicates and inputs for the facts about the other code      *)
(* ===================================================================== *)

Module PropsExt.
Import Polkit Props PolkitExt IpcExt Ipc Scenarios.

(** [m] changes no registry entry other than [c]'s. *)
Definition Frame {A} (c : string) (m : M A) : Prop :=
  forall w c', c' <> c -> m_sessions (snd (m w)) !! c' = m_sessions w !! c'.

(** [m] registers no cookie that is absent. *)
Definition Shrinks {A} (m : M A) : Prop :=
  forall w c', m_sessions w !! c' = None -> m_sessions (snd (m w)) !! c' = None.

(** One iteration of the cancellation loops on a registered cookie. *)
Definition cancelStep (h : string) (w : World) : World :=
  snd (cleanupSession h (snd (setState h CANCELLED w))).

(** The characters [QByteArray::toHex] produces. *)
Definition hexDigits : list ascii := String.list_ascii_of_string "0123456789abcdef".

(** [w2] with an NFC reader present. *)
Definition w2_nfc : World := mkWorld {[ "c2" := lockedSession ]} true [].

(** The arguments after [run0] in [run0 --user root -E /usr/bin/vim /etc/hosts]. *)
Definition run0_args : list string := ["--user"; "root"; "-E"; "/usr/bin/vim"; "/etc/hosts"].

(** A [QString::arg] stand-in and an unreadable [/proc]. *)
Definition keepTemplate (template command : string) : string := template.
Definition noCmdline (path : string) : option string := None.

(** A server with no client and an empty queue, and two signals emitted
    meanwhile. *)
Definition idleConn : Conn := mkConn (mkServer [] 0 0 false [] [] [] 0) false 0.
Definition offlineSignals : list WrapperSignal :=
  [SigAuthorizationResult true "org.example.check"; SigAuthorizationError "denied"].

End PropsExt.

(* ===================================================================== *)
(* Part 7. Facts about the session state machine                         *)
(* ===================================================================== *)

Module PolkitFacts.
Import Polkit Props.

Lemma hoare_bind {A B} (P R Q : World -> Prop) (m : M A) (k : A -> M B) :
  Hoare P m R -> (forall a, Hoare R (k a) Q) -> Hoare P (m ≫= k) Q.
Proof.
  intros Hm Hk w HP. unfold mbind, M_bind.
  specialize (Hm w HP). destruct (m w) as [a w'] eqn:E. simpl in Hm. exact (Hk a w' Hm).
Qed.

Lemma hoare_ret {A} (P : World -> Prop) (a : A) : Hoare P (mret a) P.
Proof. intros w HP. exact HP. Qed.

Lemma hoare_getSession P c : Hoare P (getSession c) P.
Proof. intros w HP. exact HP. Qed.

Lemma hoare_getNfc P : Hoare P getNfcReaderPresent P.
Proof. intros w HP. exact HP. Qed.

(** Unfolding one member function on a concrete world. *)
Lemma bind_unfold {A B} (m : M A) (k : A -> M B) w :
  (m ≫= k) w = let '(a, w') := m w in k a w'.
Proof. reflexivity. Qed.

Lemma getSession_run c w : getSession c w = (m_sessions w !! c, w).
Proof. reflexivity. Qed.

Section Retry.
Variable ex : string -> Prop.

Lemma hoare_emit e : Hoare (RetryInv ex) (emit e) (RetryInv ex).
Proof. intros w HP. exact HP. Qed.

Lemma hoare_setNfc b : Hoare (RetryInv ex) (setNfcReaderPresent b) (RetryInv ex).
Proof. intros w HP. exact HP. Qed.

Lemma hoare_modify c f :
  (forall s, retryCount (f s) = retryCount s) ->
  Hoare (RetryInv ex) (modifySession c f) (RetryInv ex).
Proof.
  intros Hf w HP c' s' Hs' Hex. simpl in Hs'. rewrite lookup_alter in Hs'.
  destruct (decide (c = c')) as [<-|Hne].
  - destruct (m_sessions w !! c) as [s|] eqn:E; simpl in Hs'; [|discriminate].
    injection Hs' as <-. rewrite Hf. exact (HP c s E Hex).
  - exact (HP c' s' Hs' Hex).
Qed.

Lemma hoare_put c s :
  retryCount s = 0%Z -> Hoare (RetryInv ex) (putSession c s) (RetryInv ex).
Proof.
  intros Hs w HP c' s' Hs' Hex. simpl in Hs'. rewrite lookup_insert in Hs'.
  destruct (decide (c = c')) as [<-|Hne].
  - injection Hs' as <-. exact Hs.
  - exact (HP c' s' Hs' Hex).
Qed.

Lemma hoare_remove c : Hoare (RetryInv ex) (removeSession c) (RetryInv ex).
Proof.
  intros w HP c' s' Hs' Hex. simpl in Hs'. rewrite lookup_delete in Hs'.
  destruct (decide (c = c')); [discriminate | exact (HP c' s' Hs' Hex)].
Qed.

End Retry.

Ltac hoare_step :=
  match goal with
  | |- Hoare _ (mbind _ _) _ => eapply hoare_bind; [| intros ?]
  | |- Hoare _ (mret _) _ => apply hoare_ret
  | |- Hoare _ (getSession _) _ => apply hoare_getSession
  | |- Hoare _ getNfcReaderPresent _ => apply hoare_getNfc
  | |- Hoare _ (emit _) _ => apply hoare_emit
  | |- Hoare _ (setNfcReaderPresent _) _ => apply hoare_setNfc
  | |- Hoare _ (removeSession _) _ => apply hoare_remove
  | |- Hoare _ (modifySession _ _) _ => apply hoare_modify; intros; reflexivity
  | |- Hoare _ (putSession _ _) _ => apply hoare_put; reflexivity
  | |- Hoare _ (match ?x with _ => _ end) _ => destruct x
  | |- Hoare _ (if ?b then _ else _) _ => destruct b
  end.

Section RetryOps.
Variable ex : string -> Prop.

Lemma hoare_setState c st : Hoare (RetryInv ex) (setState c st) (RetryInv ex).
Proof. unfold setState. repeat hoare_step. Qed.

Lemma hoare_setMethod c m : Hoare (RetryInv ex) (setMethod c m) (RetryInv ex).
Proof. unfold setMethod. repeat hoare_step. Qed.

Lemma hoare_startFido c : Hoare (RetryInv ex) (startFidoTimeout c) (RetryInv ex).
Proof. unfold startFidoTimeout. repeat hoare_step. Qed.

Lemma hoare_cancelFido c : Hoare (RetryInv ex) (cancelFidoTimeout c) (RetryInv ex).
Proof. unfold cancelFidoTimeout. repeat hoare_step. Qed.

Lemma hoare_onFidoTimeout c : Hoare (RetryInv ex) (onFidoTimeout c) (RetryInv ex).
Proof.
  unfold onFidoTimeout. repeat (hoare_step || apply hoare_setState).
Qed.

Lemma hoare_cleanup c : Hoare (RetryInv ex) (cleanupSession c) (RetryInv ex).
Proof.
  unfold cleanupSession. repeat (hoare_step || apply hoare_cancelFido).
Qed.

End RetryOps.

Ltac hoare_ops :=
  repeat (hoare_step || apply hoare_setState || apply hoare_setMethod || apply hoare_startFido
          || apply hoare_cancelFido || apply hoare_cleanup).

Section RetryHandlers.
Variable ex : string -> Prop.

Lemma hoare_onRequest c a rq e : Hoare (RetryInv ex) (onRequest c a rq e) (RetryInv ex).
Proof. unfold onRequest. hoare_ops. Qed.

Lemma hoare_onShowError c a t : Hoare (RetryInv ex) (onShowError c a t) (RetryInv ex).
Proof. unfold onShowError. hoare_ops. Qed.

Lemma hoare_submit c r : Hoare (RetryInv ex) (submitAuthenticationResponse c r) (RetryInv ex).
Proof. unfold submitAuthenticationResponse. hoare_ops. Qed.

Lemma hoare_initiate a ic c h n r :
  Hoare (RetryInv ex) (initiateAuthentication a ic c h n r) (RetryInv ex).
Proof. unfold initiateAuthentication. hoare_ops. Qed.

Lemma hoare_cancelAll cs : Hoare (RetryInv ex) (cancelAll cs) (RetryInv ex).
Proof. induction cs as [|c cs IH]; simpl; hoare_ops. exact IH. Qed.

Lemma hoare_cancelAuthentication : Hoare (RetryInv ex) cancelAuthentication (RetryInv ex).
Proof. intros w HP. unfold cancelAuthentication. apply hoare_cancelAll. exact HP. Qed.

Lemma hoare_modify_exempt c f :
  ex c -> Hoare (RetryInv ex) (modifySession c f) (RetryInv ex).
Proof.
  intros Hc w HP c' s' Hs' Hex. simpl in Hs'. rewrite lookup_alter in Hs'.
  destruct (decide (c = c')) as [<-|Hne]; [contradiction|]. exact (HP c' s' Hs' Hex).
Qed.

End RetryHandlers.

Lemma removes_bind {A B} c (m : M A) (k : A -> M B) :
  (forall a, Removes c (k a)) -> Removes c (m ≫= k).
Proof. intros Hk w. unfold mbind, M_bind. destruct (m w) as [a w']. apply Hk. Qed.

Lemma removes_remove c : Removes c (removeSession c).
Proof. intros w. simpl. apply lookup_delete_eq. Qed.

Lemma cleanup_removes c : Removes c (cleanupSession c).
Proof.
  intros w. unfold cleanupSession. rewrite bind_unfold, getSession_run.
  destruct (m_sessions w !! c) as [s|] eqn:E; cbv beta iota; [|exact E].
  match goal with |- m_sessions (snd (?m w)) !! c = None =>
    cut (Removes c m); [intros HR; apply HR|] end.
  repeat (apply removes_bind; intros ?). apply removes_remove.
Qed.

Lemma onCompleted_removes c a g : Removes c (onCompleted c a g).
Proof.
  unfold onCompleted. repeat (first [apply cleanup_removes | apply removes_bind; intros ?]).
Qed.

Lemma hoare_onCompleted ex c a g : Hoare (RetryInv ex) (onCompleted c a g) (RetryInv ex).
Proof.
  intros w HP.
  set (ex' := fun c' => ex c' \/ c' = c).
  assert (HP' : RetryInv ex' w).
  { intros c' s' Hs' Hex. apply (HP c' s' Hs'). intros H. apply Hex. left. exact H. }
  assert (H1 : RetryInv ex' (snd (onCompleted c a g w))).
  { clear HP. revert w HP'. change (Hoare (RetryInv ex') (onCompleted c a g) (RetryInv ex')).
    unfold onCompleted, recordFailure, completeAsyncResult.
    repeat (hoare_step || apply hoare_setState || apply hoare_setMethod
            || apply hoare_cancelFido || apply hoare_cleanup
            || (apply hoare_modify_exempt; right; reflexivity)). }
  intros c' s' Hs' Hex. destruct (decide (c' = c)) as [->|Hne].
  - rewrite onCompleted_removes in Hs'. discriminate.
  - apply (H1 c' s' Hs'). intros [H|H]; [exact (Hex H)|exact (Hne H)].
Qed.

Lemma hoare_step_input ex i : Hoare (RetryInv ex) (step i) (RetryInv ex).
Proof.
  destruct i; simpl.
  - apply hoare_initiate.
  - apply hoare_onRequest.
  - apply hoare_onCompleted.
  - apply hoare_onShowError.
  - apply hoare_submit.
  - apply hoare_onFidoTimeout.
  - apply hoare_cancelAuthentication.
Qed.

(** In every world reached from a fresh wrapper, every registered session
    has a zero retry counter. *)
Lemma run_retry_zero (is : list Input) : RetryInv (fun _ => False) (run is initialWorld).
Proof.
  assert (H0 : RetryInv (fun _ => False) initialWorld).
  { intros c s Hs. simpl in Hs. rewrite lookup_empty in Hs. discriminate. }
  unfold run. generalize initialWorld H0. induction is as [|i is IH]; intros w Hw; simpl.
  - exact Hw.
  - apply IH. apply hoare_step_input. exact Hw.
Qed.

(** The trace only grows. *)
Lemma grows_bind {A B} (m : M A) (k : A -> M B) :
  Grows m -> (forall a, Grows (k a)) -> Grows (m ≫= k).
Proof.
  intros Hm Hk w. unfold mbind, M_bind. specialize (Hm w).
  destruct (m w) as [a w'] eqn:E. simpl in *. etrans; [exact Hm|apply Hk].
Qed.

Ltac grows :=
  repeat match goal with
  | |- Grows (mbind _ _) => apply grows_bind; [|intros ?]
  | |- Grows (mret _) => intros ?; reflexivity
  | |- Grows (getSession _) => intros ?; reflexivity
  | |- Grows getNfcReaderPresent => intros ?; reflexivity
  | |- Grows (emit _) => intros ?; simpl; apply prefix_app_r; reflexivity
  | |- Grows (modifySession _ _) => intros ?; reflexivity
  | |- Grows (putSession _ _) => intros ?; reflexivity
  | |- Grows (removeSession _) => intros ?; reflexivity
  | |- Grows (setNfcReaderPresent _) => intros ?; reflexivity
  | |- Grows (match ?x with _ => _ end) => destruct x
  | |- Grows (if ?b then _ else _) => destruct b
  | |- Grows (setState _ _) => unfold setState
  | |- Grows (setMethod _ _) => unfold setMethod
  | |- Grows (cancelFidoTimeout _) => unfold cancelFidoTimeout
  | |- Grows (cleanupSession _) => unfold cleanupSession
  end.

Lemma grows_cleanup c : Grows (cleanupSession c).
Proof. grows. Qed.

Lemma grows_in {A} (m : M A) e w : Grows m -> e ∈ out w -> e ∈ out (snd (m w)).
Proof. intros Hm Hin. destruct (Hm w) as [l ->]. apply elem_of_app. left. exact Hin. Qed.

Lemma cancelFido_keeps c w s :
  m_sessions w !! c = Some s ->
  exists s1, m_sessions (snd (cancelFidoTimeout c w)) !! c = Some s1 /\ state s1 = state s /\ method s1 = method s /\ retryCount s1 = retryCount s.
Proof.
  intros E. unfold cancelFidoTimeout. rewrite bind_unfold, getSession_run, E.
  destruct (fidoTimeoutTimer s); simpl.
  - rewrite lookup_alter_eq, E. eexists; simpl; eauto.
  - eexists; eauto.
Qed.

Lemma recordFailure_lockout c w s :
  m_sessions w !! c = Some s -> (MAX_AUTH_RETRIES <= retryCount s + 1)%Z ->
  state s <> MAX_RETRIES_EXCEEDED ->
  EvStateChanged c MAX_RETRIES_EXCEEDED ∈ out (snd (recordFailure c w)) /\
  EvAuthenticationError c MAX_RETRIES_EXCEEDED (method s)
    (getDefaultErrorMessage MAX_RETRIES_EXCEEDED (method s)) (retryDetails (retryCount s + 1))
    ∈ out (snd (recordFailure c w)).
Proof.
  intros E Hn Hs. destruct w as [ss nfc o]; simpl in E.
  unfold recordFailure. rewrite bind_unfold, getSession_run. simpl. rewrite E.
  cbv [mbind M_bind mret M_ret getSession modifySession emit setState]; simpl.
  destruct (decide _) as [_|Hc]; [|contradiction]. simpl.
  rewrite !lookup_alter_eq, E. simpl.
  destruct (decide _) as [Hc|_]; [contradiction|]. simpl.
  rewrite !lookup_alter_eq, E. simpl.
  split; apply elem_of_app; [left; apply elem_of_app; right|right]; apply list_elem_of_singleton; reflexivity.
Qed.

Ltac grows_tail :=
  repeat match goal with
  | |- Grows (mbind _ _) => apply grows_bind; [|intros ?]
  | |- Grows (mret _) => intros ?; reflexivity
  | |- Grows (getSession _) => intros ?; reflexivity
  | |- Grows (emit _) => intros ?; simpl; apply prefix_app_r; reflexivity
  | |- Grows (modifySession _ _) => intros ?; reflexivity
  | |- Grows (removeSession _) => intros ?; reflexivity
  | |- Grows (match ?x with _ => _ end) => destruct x
  | |- Grows (if ?b then _ else _) => destruct b
  | |- Grows (cleanupSession _) => apply grows_cleanup
  | |- Grows (completeAsyncResult _ _) => unfold completeAsyncResult
  end.

Lemma completed_lockout w c a s :
  m_sessions w !! c = Some s -> (MAX_AUTH_RETRIES <= retryCount s + 1)%Z ->
  state s <> MAX_RETRIES_EXCEEDED ->
  EvStateChanged c MAX_RETRIES_EXCEEDED ∈ out (snd (onCompleted c a false w)) /\
  EvAuthenticationError c MAX_RETRIES_EXCEEDED (method s)
    (getDefaultErrorMessage MAX_RETRIES_EXCEEDED (method s)) (retryDetails (retryCount s + 1))
    ∈ out (snd (onCompleted c a false w)) /\
  m_sessions (snd (onCompleted c a false w)) !! c = None.
Proof.
  intros E Hn Hs.
  destruct (cancelFido_keeps c w s E) as (s1 & E1 & Hst & Hm & Hr).
  split; [|split; [|apply onCompleted_removes]].
  all: unfold onCompleted; rewrite bind_unfold.
  all: destruct (cancelFidoTimeout c w) as [u w1] eqn:Ew1; simpl in E1; cbv beta iota.
  all: rewrite bind_unfold; destruct (recordFailure c w1) as [u2 w2] eqn:Ew2; cbv beta iota.
  all: apply grows_in; [grows_tail|].
  all: rewrite <- Hst in Hs; rewrite <- Hr in Hn; rewrite <- ?Hr, <- ?Hm.
  all: destruct (recordFailure_lockout c w1 s1 E1 Hn Hs) as [H1 H2]; rewrite Ew2 in H1, H2; assumption.
Qed.

Lemma submit_absent w c r :
  m_sessions w !! c = None -> submitAuthenticationResponse c r w = (tt, w).
Proof. intros E. unfold submitAuthenticationResponse. rewrite bind_unfold, getSession_run, E. reflexivity. Qed.

Lemma submit_locked w c r s :
  m_sessions w !! c = Some s -> session s = true -> state s = MAX_RETRIES_EXCEEDED ->
  snd (submitAuthenticationResponse c r w) =
  mkWorld (m_sessions w) (m_nfcReaderPresent w)
    (out w ++ [EvAuthenticationError c MAX_RETRIES_EXCEEDED (method s)
                 (getDefaultErrorMessage MAX_RETRIES_EXCEEDED (method s))
                 "User attempted to submit response after max retries";
               EvAuthorizationError (getDefaultErrorMessage MAX_RETRIES_EXCEEDED (method s))]).
Proof.
  intros E Hb Hst. unfold submitAuthenticationResponse. rewrite bind_unfold, getSession_run, E.
  cbv beta iota. rewrite Hb. simpl. rewrite decide_True by exact Hst.
  destruct w as [ss nfc o]. simpl. rewrite <- app_assoc. reflexivity.
Qed.

Lemma timer_alter f c c' (m : gmap string SessionState) :
  (forall s, fidoTimeoutTimer (f s) = fidoTimeoutTimer s) ->
  fidoTimeoutTimer <$> alter f c m !! c' = fidoTimeoutTimer <$> m !! c'.
Proof.
  intros Hf. destruct (decide (c = c')) as [->|Hne].
  - rewrite lookup_alter_eq. destruct (m !! c'); simpl; [rewrite Hf|]; reflexivity.
  - rewrite lookup_alter_ne by exact Hne. reflexivity.
Qed.

Lemma submit_keeps_timers c r w c' :
  fidoTimeoutTimer <$> m_sessions (snd (submitAuthenticationResponse c r w)) !! c' =
  fidoTimeoutTimer <$> m_sessions w !! c'.
Proof.
  destruct w as [ss nfc o]. unfold submitAuthenticationResponse.
  cbv [mbind M_bind mret M_ret getSession modifySession emit setState setMethod]; simpl.
  destruct (ss !! c) as [s|] eqn:E; simpl; [|reflexivity].
  destruct (session s); simpl; [|reflexivity].
  destruct (decide _); simpl; [reflexivity|].
  rewrite E; simpl.
  destruct (decide (state s = AUTHENTICATING)); simpl.
  all: rewrite ?lookup_alter_eq, ?E; simpl.
  all: match goal with |- context [decide (method ?x = PASSWORD)] => destruct (decide (method x = PASSWORD)) end; simpl.
  all: rewrite ?timer_alter by reflexivity; reflexivity.
Qed.

Lemma cleanup_twice c w :
  cleanupSession c (snd (cleanupSession c w)) = (tt, snd (cleanupSession c w)).
Proof.
  unfold cleanupSession at 1. rewrite bind_unfold, getSession_run, cleanup_removes. reflexivity.
Qed.

End PolkitFacts.

(* ===================================================================== *)
(* Part 8. Facts about signing, validation and the IPC server            *)
(* ===================================================================== *)

Module IpcFacts.
Import Json Validator Security Ipc Props.

(** The hash and the MAC against published test vectors: FIPS 180-2
    appendix B.1 and RFC 4231 test case 2. *)
Lemma sha256_abc :
  Sha256.toHex (Sha256.sha256 (bytes_of_string "abc")) =
  "ba7816bf8f01cfea414140de5dae2223b00361a396177a9cb410ff61f20015ad".
Proof. vm_compute. reflexivity. Qed.

Lemma hmac_sha256_rfc4231_2 :
  Sha256.toHex (Sha256.hmac_sha256 (bytes_of_string "Jefe")
                  (bytes_of_string "what do ya want for nothing?")) =
  "5bdcc146bf60754e6a042426089575c75a003f089d2739839dec58b964ec3843".
Proof. vm_compute. reflexivity. Qed.

(** Signing and verification. *)
Lemma sign_verify sm m t t' :
  s_initialized sm = true -> m !! "hmac" = None ->
  verifyMessage sm t' (signMessage sm t m) = bool_decide (- MAX_TIME_SKEW_MS <= t' - t <= MAX_TIME_SKEW_MS)%Z.
Proof.
  intros Hi Hh. unfold verifyMessage, signMessage.
  rewrite lookup_insert_eq. rewrite lookup_insert_ne by done. rewrite lookup_insert_eq. simpl.
  rewrite delete_insert_eq. rewrite delete_insert_ne by done. rewrite delete_id by done.
  unfold verifyHMAC. rewrite Hi. rewrite bool_decide_true by reflexivity. simpl.
  destruct (decide _) as [H|H]; symmetry; [apply bool_decide_false; lia|apply bool_decide_true; lia].
Qed.

Lemma verify_sound sm now m :
  verifyMessage sm now m = true ->
  is_Some (m !! "timestamp") /\
  toString (m !! "hmac") = generateHMAC sm (toJsonCompact (delete "hmac" m)) /\
  (- MAX_TIME_SKEW_MS <= now - toInt64 (m !! "timestamp") <= MAX_TIME_SKEW_MS)%Z.
Proof.
  unfold verifyMessage, verifyHMAC.
  destruct (bool_decide (is_Some (m !! "hmac"))) eqn:H1; [|discriminate].
  destruct (bool_decide (is_Some (m !! "timestamp"))) eqn:H2; [|discriminate].
  apply bool_decide_eq_true in H2. simpl.
  destruct (s_initialized sm); [|discriminate]. simpl.
  destruct (bool_decide (generateHMAC _ _ = _)) eqn:H3; [|discriminate].
  apply bool_decide_eq_true in H3. simpl.
  destruct (decide _) as [H|H]; [discriminate|]. intros _.
  split; [exact H2|split; [symmetry; exact H3|lia]].
Qed.

(** Validation of signed messages. *)
Lemma validate_signed_noncancel m ts h :
  toString (m !! "type") <> "cancel_authorization" ->
  validateMessage (<["hmac" := JString h]> (<["timestamp" := JNumber ts]> m)) = validateMessage m.
Proof.
  intros Ht.
  unfold validateMessage, validateMessageType, validateCheckAuthorization,
    validateSubmitAuthentication, validateString.
  rewrite !lookup_insert_ne by done.
  destruct (decide (toString (m !! "type") = "check_authorization")).
  all: destruct (decide (toString (m !! "type") = "cancel_authorization")); [contradiction|].
  all: reflexivity.
Qed.

Lemma firstUnexpected_None al ks :
  firstUnexpected al ks = None <-> Forall (fun k => k ∈ al) ks.
Proof.
  induction ks as [|k ks IH]; simpl.
  - split; [constructor|reflexivity].
  - destruct (decide (k ∈ al)) as [Hk|Hk].
    + rewrite IH, Forall_cons. tauto.
    + split; [discriminate|]. intros H. inversion H. contradiction.
Qed.

Lemma in_keys m k : k ∈ keys m <-> is_Some (m !! k).
Proof.
  unfold keys, entries. rewrite (merge_sort_Permutation _ (map_to_list m)).
  rewrite list_elem_of_fmap. split.
  - intros [[k' v] [-> Hin]]. apply elem_of_map_to_list in Hin. simpl. eauto.
  - intros [v Hv]. exists (k, v). split; [reflexivity|]. apply elem_of_map_to_list. exact Hv.
Qed.

Lemma validate_cancel m :
  toString (m !! "type") = "cancel_authorization" ->
  (validateMessage m = success <-> forall k, is_Some (m !! k) -> k = "type").
Proof.
  intros Ht. unfold validateMessage, validateMessageType.
  destruct (m !! "type") as [[]|] eqn:E; simpl in Ht; try discriminate. subst.
  rewrite decide_True by (unfold VALID_MESSAGE_TYPES; set_solver).
  simpl. unfold validateCancelAuthorization.
  destruct (firstUnexpected ["type"] (keys m)) as [k|] eqn:F.
  - split; [discriminate|]. intros Hall. exfalso.
    assert (Hn : firstUnexpected ["type"] (keys m) = None).
    { apply firstUnexpected_None, Forall_forall. intros k' Hk'.
      apply in_keys in Hk'. rewrite (Hall k' Hk'). set_solver. }
    congruence.
  - split; [|reflexivity]. intros _ k Hk.
    apply firstUnexpected_None in F. rewrite Forall_forall in F.
    apply in_keys, F in Hk. set_solver.
Qed.

(** The outbound queue. *)

Lemma queueMessage_ok m q : queueOk q -> queueOk (queueMessage m q).
Proof.
  intros [Hl Hf]. unfold queueMessage.
  destruct (decide (toString (m !! "type") ∈ unqueued_types)) as [Hu|Hu]; [split; assumption|].
  destruct (decide (MAX_QUEUED_MESSAGES <= length q)) as [Hn|Hn]; split.
  - rewrite length_app. unfold MAX_QUEUED_MESSAGES in *. destruct q; simpl in *; lia.
  - apply Forall_app. split; [|constructor; [exact Hu|constructor]].
    destruct q; simpl; [constructor|]. inversion Hf; assumption.
  - rewrite length_app. simpl. lia.
  - apply Forall_app. split; [exact Hf|constructor; [exact Hu|constructor]].
Qed.

Lemma queueStep_ok st op : queueOk (m_pendingMessages st) -> queueOk (m_pendingMessages (queueStep st op)).
Proof.
  intros H. destruct op as [m b|b]; simpl.
  - unfold sendMessageToClient. destruct b; simpl; [exact H|]. apply queueMessage_ok, H.
  - unfold replayQueuedMessages. simpl.
    destruct (m_pendingMessages st) as [|x q] eqn:E; simpl; rewrite ?E; split; simpl; try lia; constructor.
Qed.

Lemma runQueue_ok ops st : queueOk (m_pendingMessages st) -> queueOk (m_pendingMessages (runQueue ops st)).
Proof.
  revert st. induction ops as [|op ops IH]; intros st H; simpl; [exact H|].
  apply IH, queueStep_ok, H.
Qed.

(** The rate limiter. *)
Lemma evictOld_keeps_last now q : now ∈ evictOld now (q ++ [now]).
Proof.
  induction q as [|t q IH]; simpl.
  - rewrite decide_False by (unfold RATE_LIMIT_WINDOW_MS; lia). set_solver.
  - destruct (decide _); [exact IH|]. set_solver.
Qed.

Lemma handle_timestamps MAX sm now message st :
  m_messageTimestamps (handleClientMessage MAX sm now message st) =
  snd (checkRateLimit MAX now (m_messageTimestamps st)).
Proof.
  unfold handleClientMessage. destruct (checkRateLimit _ _ _) as [ok window]. simpl.
  unfold dispatch, sendErrorToClient, sendMessageToClient, disconnectFromServer.
  repeat (match goal with
          | |- context [if ?b then _ else _] => destruct b
          | |- context [match ?x with _ => _ end] => destruct x
          end; simpl); reflexivity.
Qed.

End IpcFacts.

(* ===================================================================== *)
(* Part 9. The specification's claims                                    *)
(* ===================================================================== *)

Module Claims.
Import Polkit Json Validator Security Ipc Props Scenarios PolkitFacts IpcFacts.
Local Open Scope list_scope.

(** C1: [completed(false)] never keeps a session for a retry. For every
    cookie and every wrapper state, the [Session::completed] handler with
    [gainedAuthorization = false] leaves the cookie unregistered. On the
    password conversation [c1_inputs] (one wrong password, retry counter
    1 of 3) the wrapper moves to [AUTHENTICATION_FAILED], completes the
    daemon's [AsyncResult] with an error, cancels the PAM conversation and
    removes the session; it never restarts the conversation
    ([EvSessionInitiate] is emitted once, at the start) and never reaches
    [WAITING_FOR_PASSWORD] again. *)
Theorem C1_failed_attempt_tears_down :
  (forall c a w, m_sessions (snd (onCompleted c a false w)) !! c = None) /\
  out (run c1_inputs initialWorld) =
    [EvStateChanged "c1" INITIATED; EvSessionInitiate "c1";
     EvShowAuthDialog "org.example.retry" "dialog-password" "c1";
     EvStateChanged "c1" WAITING_FOR_PASSWORD; EvMethodChanged "c1" PASSWORD;
     EvShowPasswordRequest "org.example.retry" "Password: " false "c1";
     EvStateChanged "c1" AUTHENTICATING; EvSessionSetResponse "c1" "wrong";
     EvStateChanged "c1" AUTHENTICATION_FAILED;
     EvAuthenticationError "c1" AUTHENTICATION_FAILED PASSWORD
       "Incorrect password. Please try again." "Retry count: 1/3";
     EvResultSetError 7%N "Authentication failed"; EvResultSetCompleted 7%N;
     EvAuthorizationResult false "org.example.retry";
     EvSessionCancel "c1"; EvResultSetError 7%N "Session cleaned up"; EvResultSetCompleted 7%N] /\
  lookupState "c1" (run c1_inputs initialWorld) = None.
Proof.
  split; [intros c a w; apply onCompleted_removes|].
  split; vm_compute; reflexivity.
Qed.

(** C2: the retry limit is never reached. In every wrapper state reached
    from the initial one, every registered session has [retryCount = 0]:
    [completed(false)] increments the counter and then always removes the
    session (the C1 defect). On [c2_inputs] (three wrong passwords for one
    conversation, then a fourth answer) the session is gone after the
    first failure: the later prompts and answers do nothing, the two later
    [completed(false)] only emit [authorizationResult(false)] again, the
    counter never reaches 2 or 3, no [MAX_RETRIES_EXCEEDED] state change
    or lockout error is emitted, and the last [submitAuthenticationResponse]
    is not rejected with an error signal; the cookie is unregistered. *)
Theorem C2_lockout_unreachable :
  (forall is c s, m_sessions (run is initialWorld) !! c = Some s -> retryCount s = 0%Z) /\
  out (run c2_inputs initialWorld) =
    [EvStateChanged "c1" INITIATED; EvSessionInitiate "c1";
     EvShowAuthDialog "org.example.retry" "dialog-password" "c1";
     EvStateChanged "c1" WAITING_FOR_PASSWORD; EvMethodChanged "c1" PASSWORD;
     EvShowPasswordRequest "org.example.retry" "Password: " false "c1";
     EvStateChanged "c1" AUTHENTICATING; EvSessionSetResponse "c1" "wrong";
     EvStateChanged "c1" AUTHENTICATION_FAILED;
     EvAuthenticationError "c1" AUTHENTICATION_FAILED PASSWORD
       "Incorrect password. Please try again." "Retry count: 1/3";
     EvResultSetError 7%N "Authentication failed"; EvResultSetCompleted 7%N;
     EvAuthorizationResult false "org.example.retry";
     EvSessionCancel "c1"; EvResultSetError 7%N "Session cleaned up"; EvResultSetCompleted 7%N;
     EvAuthorizationResult false "org.example.retry";
     EvAuthorizationResult false "org.example.retry"] /\
  (EvStateChanged "c1" MAX_RETRIES_EXCEEDED ∉ out (run c2_inputs initialWorld)) /\
  lookupState "c1" (run c2_inputs initialWorld) = None.
Proof.
  split; [intros is c s Hs; apply (run_retry_zero is c s Hs); intros []|].
  assert (E : out (run c2_inputs initialWorld) =
    [EvStateChanged "c1" INITIATED; EvSessionInitiate "c1";
     EvShowAuthDialog "org.example.retry" "dialog-password" "c1";
     EvStateChanged "c1" WAITING_FOR_PASSWORD; EvMethodChanged "c1" PASSWORD;
     EvShowPasswordRequest "org.example.retry" "Password: " false "c1";
     EvStateChanged "c1" AUTHENTICATING; EvSessionSetResponse "c1" "wrong";
     EvStateChanged "c1" AUTHENTICATION_FAILED;
     EvAuthenticationError "c1" AUTHENTICATION_FAILED PASSWORD
       "Incorrect password. Please try again." "Retry count: 1/3";
     EvResultSetError 7%N "Authentication failed"; EvResultSetCompleted 7%N;
     EvAuthorizationResult false "org.example.retry";
     EvSessionCancel "c1"; EvResultSetError 7%N "Session cleaned up"; EvResultSetCompleted 7%N;
     EvAuthorizationResult false "org.example.retry";
     EvAuthorizationResult false "org.example.retry"])
    by (vm_compute; reflexivity).
  split; [exact E|]. split.
  - rewrite E. intros Hin. repeat (apply elem_of_cons in Hin as [Hin|Hin]; [discriminate Hin|]).
    exact (not_elem_of_nil _ Hin).
  - vm_compute. reflexivity.
Qed.

(** C3: cleaning up a cookie twice is a no-op the second time, but the
    daemon's [AsyncResult] is completed twice after a failed attempt: the
    [completed] handler completes it with an error, and [cleanupSession]
    completes it again because the state is not [COMPLETED]. *)
Theorem C3_result_completed_twice :
  (forall c w, cleanupSession c (snd (cleanupSession c w)) = (tt, snd (cleanupSession c w))) /\
  length (filter (fun e => e = EvResultSetCompleted 7%N) (out (run c1_inputs initialWorld))) = 2.
Proof.
  split; [apply cleanup_twice|]. vm_compute. reflexivity.
Qed.

(** C4: the validator rejects every message of type [heartbeat]
    ([VALID_MESSAGE_TYPES] does not list it), so the heartbeat branch of
    [handleClientMessage] is never reached: a heartbeat from a connected
    client is answered with an error, no [heartbeat_ack], and neither the
    heartbeat clock nor the session clock moves. *)
Theorem C4_heartbeat_rejected :
  (forall o, validateMessage (<["type" := JString "heartbeat"]> o) =
             failure "Invalid message type: heartbeat") /\
  handleClientMessage 10 sm0 1000 heartbeat0 (server0 0) =
    mkServer [1000%Z] 0 0 true [] [errorMessage "Invalid message: Invalid message type: heartbeat"] [] 0.
Proof.
  split; [|vm_compute; reflexivity].
  intros o. unfold validateMessage, validateMessageType. rewrite lookup_insert_eq.
  destruct (decide ("heartbeat" ∈ VALID_MESSAGE_TYPES)) as [H|H]; [|reflexivity].
  exfalso. unfold VALID_MESSAGE_TYPES in H.
  repeat (apply elem_of_cons in H; destruct H as [H|H]; [discriminate H|]).
  apply (not_elem_of_nil _ H).
Qed.

(** C5: [submitAuthenticationResponse] leaves every session's FIDO timer
    as it was. On [c5_inputs] the user's password arrives while the
    session is in [TRYING_FIDO]: the session moves to [AUTHENTICATING]
    with method [PASSWORD] and the response is forwarded, but the FIDO
    timer stays armed (no [EvTimerStop]). *)
Theorem C5_submit_keeps_fido_timer :
  (forall c r w c',
     fidoTimeoutTimer <$> m_sessions (snd (submitAuthenticationResponse c r w)) !! c' =
     fidoTimeoutTimer <$> m_sessions w !! c') /\
  (fun s => (state s, method s, fidoTimeoutTimer s)) <$> m_sessions (run c5_inputs initialWorld) !! "c5"
    = Some (AUTHENTICATING, PASSWORD, true) /\
  out (run c5_inputs initialWorld) =
    [EvStateChanged "c5" INITIATED; EvSessionInitiate "c5";
     EvShowAuthDialog "org.example.fido" "dialog-password" "c5";
     EvStateChanged "c5" TRYING_FIDO; EvMethodChanged "c5" FIDO;
     EvTimerStart "c5"; EvSessionSetResponse "c5" "";
     EvStateChanged "c5" AUTHENTICATING; EvMethodChanged "c5" PASSWORD;
     EvSessionSetResponse "c5" "hunter2"].
Proof.
  split; [apply submit_keeps_timers|]. split; vm_compute; reflexivity.
Qed.

(** C6: when the FIDO timer fires for a cookie, the session moves from
    [TRYING_FIDO] to [FIDO_FAILED], with the method-failed signal, only if
    it is registered and still in [TRYING_FIDO]; other sessions are left
    as they were. If the session has moved on, no session's state changes
    and nothing is emitted; if it is gone, nothing changes at all. *)
Theorem C6_fido_timeout_guarded (c : string) (w : World) :
  let w' := snd (onFidoTimeout c w) in
  match m_sessions w !! c with
  | Some s =>
      if decide (state s = TRYING_FIDO) then
        lookupState c w' = Some FIDO_FAILED /\
        out w' = out w ++ [EvStateChanged c FIDO_FAILED;
                           EvMethodFailed c FIDO "Security key timeout - no response within 15 seconds"] /\
        (forall c', c' <> c -> m_sessions w' !! c' = m_sessions w !! c')
      else (forall c', lookupState c' w' = lookupState c' w) /\ out w' = out w
  | None => w' = w
  end.
Proof.
  destruct w as [ss nfc o]. unfold onFidoTimeout, setState, lookupState.
  cbv [mbind M_bind mret M_ret getSession modifySession emit]; simpl.
  destruct (ss !! c) as [s|] eqn:E; [|reflexivity].
  destruct (fidoTimeoutTimer s); simpl;
  destruct (decide (state s = TRYING_FIDO)) as [Ht|Ht]; simpl.
  all: rewrite ?lookup_alter_eq, ?E; simpl.
  all: try (rewrite Ht; simpl).
  all: repeat match goal with |- context [decide ?P] => destruct (decide P); [congruence|] end; simpl.
  all: rewrite <- ?app_assoc.
  - rewrite lookup_alter_eq, lookup_alter_eq, E. simpl. split; [done|split; [done|]].
    intros c' Hc. rewrite !lookup_alter_ne; done.
  - split; [|done]. intros c'. destruct (decide (c' = c)) as [->|Hc].
    + rewrite lookup_alter_eq, E. done.
    + rewrite lookup_alter_ne; done.
  - rewrite lookup_alter_eq, E. simpl. split; [done|split; [done|]].
    intros c' Hc. rewrite !lookup_alter_ne; done.
  - split; done.
Qed.

(** C7 (amended): for an initialized [SecurityManager] and every message
    [m] without an [hmac] field, the message signed at time [t] verifies
    at time [t'] exactly when [|t' - t| <= 30000]. Whenever
    [verifyMessage] accepts a message at time [now], the message has a
    [timestamp], its [hmac] field equals [generateHMAC] of the compact
    serialization of the message without [hmac], and
    [|now - timestamp| <= 30000]. *)
Theorem C7_sign_verify_roundtrip :
  (forall sm m t t',
     s_initialized sm = true -> m !! "hmac" = None ->
     verifyMessage sm t' (signMessage sm t m) =
     bool_decide (- MAX_TIME_SKEW_MS <= t' - t <= MAX_TIME_SKEW_MS)%Z) /\
  (forall sm now m,
     verifyMessage sm now m = true ->
     is_Some (m !! "timestamp") /\
     toString (m !! "hmac") = generateHMAC sm (toJsonCompact (delete "hmac" m)) /\
     (- MAX_TIME_SKEW_MS <= now - toInt64 (m !! "timestamp") <= MAX_TIME_SKEW_MS)%Z).
Proof.
  split; [intros; apply sign_verify; assumption|intros sm now m; apply verify_sound].
Qed.

Lemma C7_sign_verify_roundtrip_witness :
  verifyMessage sm0 (t0 + 30000) (signMessage sm0 t0 check0) = true /\
  verifyMessage sm0 (t0 + 30001) (signMessage sm0 t0 check0) = false.
Proof.
  destruct C7_sign_verify_roundtrip as [H _].
  split; rewrite H by reflexivity; [apply bool_decide_true|apply bool_decide_false];
    unfold MAX_TIME_SKEW_MS; lia.
Defined.

(** C7: counterexample. A message that already carries an [hmac] field
    does not verify right after it is signed: the signature covers the old
    [hmac] value, which the verifier removes before recomputing. *)
Lemma C7_signed_hmac_field_fails :
  verifyMessage sm0 t0 (signMessage sm0 t0 withHmac0) = false.
Proof. vm_compute. reflexivity. Qed.

(** C8 (amended): for a message whose type is not
    [cancel_authorization], adding [timestamp] and [hmac] fields does not
    change the validator's verdict. A [cancel_authorization] message
    passes validation exactly when it has no field other than [type], so a
    signed [cancel_authorization] (which carries [timestamp] and [hmac])
    is always rejected by the validator, before any HMAC check. *)
Theorem C8_signed_validation :
  (forall m ts h,
     toString (m !! "type") <> "cancel_authorization" ->
     validateMessage (<["hmac" := JString h]> (<["timestamp" := JNumber ts]> m)) = validateMessage m) /\
  (forall m,
     toString (m !! "type") = "cancel_authorization" ->
     (validateMessage m = success <-> forall k, is_Some (m !! k) -> k = "type")).
Proof.
  split; [intros m ts h; apply validate_signed_noncancel|intros m; apply validate_cancel].
Qed.

Lemma C8_signed_validation_witness :
  validateMessage (signMessage sm0 t0 check0) = success /\
  validateMessage cancel0 = success.
Proof.
  destruct C8_signed_validation as [H1 H2]. split.
  - unfold signMessage. rewrite H1 by (vm_compute; discriminate). vm_compute. reflexivity.
  - apply H2; [reflexivity|]. intros k [v Hk]. unfold cancel0 in Hk.
    apply lookup_insert_Some in Hk as [[-> _]|[_ Hk]]; [reflexivity|].
    rewrite lookup_empty in Hk. discriminate.
Defined.

(** C8: counterexample. A correctly signed [cancel_authorization] from a
    connected client is rejected by the validator for its [hmac] field,
    and [cancelAuthorization] is not called. *)
Lemma C8_signed_cancel_rejected :
  handleClientMessage 10 sm0 t0 (signMessage sm0 t0 cancel0) (server0 t0) =
  mkServer [t0] t0 t0 true []
    [errorMessage "Invalid message: Unexpected field in cancel_authorization: hmac"] [] 0.
Proof. vm_compute. reflexivity. Qed.

(** C9: starting from an empty queue, whatever is sent (connected or not)
    and replayed, the outbound queue holds at most 50 messages and none of
    type [heartbeat_ack], [error] or [welcome]. A message of another type
    queued while the queue holds 50 entries drops the head (the oldest)
    and is appended at the tail; below 50 it is just appended; a message of
    one of the three types leaves the queue as it is. *)
Theorem C9_queue_bounded_fifo :
  (forall ops st, m_pendingMessages st = [] ->
     length (m_pendingMessages (runQueue ops st)) <= MAX_QUEUED_MESSAGES /\
     Forall (fun m => toString (m !! "type") ∉ unqueued_types) (m_pendingMessages (runQueue ops st))) /\
  (forall m q, toString (m !! "type") ∉ unqueued_types -> length q = MAX_QUEUED_MESSAGES ->
     queueMessage m q = tail q ++ [m]) /\
  (forall m q, toString (m !! "type") ∉ unqueued_types -> length q < MAX_QUEUED_MESSAGES ->
     queueMessage m q = q ++ [m]) /\
  (forall m q, toString (m !! "type") ∈ unqueued_types -> queueMessage m q = q).
Proof.
  split; [|split; [|split]].
  - intros ops st H. apply runQueue_ok. rewrite H. split; [simpl; lia|constructor].
  - intros m q Hu Hl. unfold queueMessage. rewrite decide_False by exact Hu.
    rewrite decide_True by lia. reflexivity.
  - intros m q Hu Hl. unfold queueMessage. rewrite decide_False by exact Hu.
    rewrite decide_False by lia. reflexivity.
  - intros m q Hu. unfold queueMessage. rewrite decide_True by exact Hu. reflexivity.
Qed.

Lemma C9_queue_bounded_fifo_witness :
  length (m_pendingMessages (runQueue (repeat (QSend check0 false) 60) (set_connected false (server0 0))))
    <= MAX_QUEUED_MESSAGES /\
  queueMessage (errorMessage "boom") [check0] = [check0] /\
  queueMessage cancel0 (repeat check0 50) = repeat check0 49 ++ [cancel0] /\
  queueMessage cancel0 [check0] = [check0; cancel0].
Proof.
  destruct C9_queue_bounded_fifo as (H1 & H2 & H3 & H4). split; [|split; [|split]].
  - apply H1. reflexivity.
  - apply H4.
    apply (bool_decide_eq_true_1 (toString (errorMessage "boom" !! "type") ∈ unqueued_types)).
    vm_compute. reflexivity.
  - rewrite H2; [reflexivity| |reflexivity].
    apply (bool_decide_eq_false_1 (toString (cancel0 !! "type") ∈ unqueued_types)).
    vm_compute. reflexivity.
  - rewrite H3; [reflexivity| |simpl; unfold MAX_QUEUED_MESSAGES; lia].
    apply (bool_decide_eq_false_1 (toString (cancel0 !! "type") ∈ unqueued_types)).
    vm_compute. reflexivity.
Defined.

(** C10: on every inbound message the arrival time is appended to the
    window before the entries older than [RATE_LIMIT_WINDOW_MS] are
    evicted from the head; the new window always contains the arrival
    time and becomes [m_messageTimestamps] whatever the verdict, so a
    rejected message counts against later ones. The message is rejected
    exactly when the window holds more than [MAX_MESSAGES_PER_SECOND]
    entries, and then the client only gets the rate-limit error. *)
Theorem C10_rate_window :
  forall MAX sm now message st,
  let window := evictOld now (m_messageTimestamps st ++ [now]) in
  checkRateLimit MAX now (m_messageTimestamps st) =
    (negb (bool_decide (MAX < Z.of_nat (length window))%Z), window) /\
  now ∈ window /\
  m_messageTimestamps (handleClientMessage MAX sm now message st) = window /\
  ((MAX < Z.of_nat (length window))%Z ->
   handleClientMessage MAX sm now message st =
   sendErrorToClient "Rate limit exceeded" (set_timestamps window st)).
Proof.
  intros MAX sm now message st window.
  split; [reflexivity|split; [apply evictOld_keeps_last|split]].
  - apply handle_timestamps.
  - intros H. unfold handleClientMessage, checkRateLimit. fold window.
    rewrite bool_decide_true by exact H. reflexivity.
Qed.

Lemma C10_rate_window_witness :
  let st := mkServer [1000; 1000]%Z 1000 1000 true [] [] [] 0 in
  handleClientMessage 2 sm0 1000 check0 st =
  sendErrorToClient "Rate limit exceeded" (set_timestamps [1000; 1000; 1000]%Z st).
Proof.
  intros st. destruct (C10_rate_window 2 sm0 1000 check0 st) as (_ & _ & _ & H).
  apply H. vm_compute. reflexivity.
Defined.

End Claims.

(* ===================================================================== *)
(* Part 9. Facts about the rest of the wrapper                            *)
(* ===================================================================== *)

Module WrapperFacts.
Import Polkit Props PolkitFacts PolkitExt PropsExt Scenarios.
Local Open Scope list_scope.

Lemma cleanup_run c w s :
  m_sessions w !! c = Some s ->
  snd (cleanupSession c w) =
  mkWorld (delete c (m_sessions w)) (m_nfcReaderPresent w)
    (out w ++ (if fidoTimeoutTimer s then [EvTimerStop c] else [])
           ++ (if session s then [EvSessionCancel c] else [])
           ++ match result s with
              | Some r => if decide (state s = COMPLETED) then []
                          else [EvResultSetError r "Session cleaned up"; EvResultSetCompleted r]
              | None => []
              end).
Proof.
  destruct w as [ss nfc o]; simpl. intros E.
  unfold cleanupSession, cancelFidoTimeout.
  cbv [mbind M_bind mret M_ret getSession modifySession emit removeSession].
  repeat progress (simpl; rewrite ?lookup_alter_eq, ?E).
  destruct (fidoTimeoutTimer s); repeat progress (simpl; rewrite ?lookup_alter_eq, ?E);
  destruct (session s); repeat progress (simpl; rewrite ?lookup_alter_eq, ?E);
  destruct (result s) as [r|]; repeat progress (simpl; rewrite ?lookup_alter_eq, ?E);
  try destruct (decide (state s = COMPLETED)); simpl;
  rewrite ?delete_alter_eq; rewrite <- ?app_assoc, ?app_nil_r; reflexivity.
Qed.

Lemma frame_bind {A B} c (m : M A) (k : A -> M B) :
  Frame c m -> (forall a, Frame c (k a)) -> Frame c (m ≫= k).
Proof.
  intros Hm Hk w c' Hne. unfold mbind, M_bind. specialize (Hm w c' Hne).
  destruct (m w) as [a w'] eqn:E. simpl in *. rewrite (Hk a w' c' Hne). exact Hm.
Qed.

Lemma shrinks_bind {A B} (m : M A) (k : A -> M B) :
  Shrinks m -> (forall a, Shrinks (k a)) -> Shrinks (m ≫= k).
Proof.
  intros Hm Hk w c' Hn. unfold mbind, M_bind. specialize (Hm w c' Hn).
  destruct (m w) as [a w'] eqn:E. simpl in *. exact (Hk a w' c' Hm).
Qed.

Ltac frame :=
  repeat match goal with
  | |- Frame _ (mbind _ _) => apply frame_bind; [|intros ?]
  | |- Frame _ (mret _) => intros ? ? ?; reflexivity
  | |- Frame _ (getSession _) => intros ? ? ?; reflexivity
  | |- Frame _ getNfcReaderPresent => intros ? ? ?; reflexivity
  | |- Frame _ (emit _) => intros ? ? ?; reflexivity
  | |- Frame _ (setNfcReaderPresent _) => intros ? ? ?; reflexivity
  | |- Frame _ (modifySession _ _) => intros ? ? ?; simpl; apply lookup_alter_ne; congruence
  | |- Frame _ (putSession _ _) => intros ? ? ?; simpl; apply lookup_insert_ne; congruence
  | |- Frame _ (removeSession _) => intros ? ? ?; simpl; apply lookup_delete_ne; congruence
  | |- Frame _ (match ?x with _ => _ end) => destruct x
  | |- Frame _ (if ?b then _ else _) => destruct b
  | |- Frame _ (setState _ _) => unfold setState
  | |- Frame _ (setMethod _ _) => unfold setMethod
  | |- Frame _ (cancelFidoTimeout _) => unfold cancelFidoTimeout
  | |- Frame _ (startFidoTimeout _) => unfold startFidoTimeout
  | |- Frame _ (cleanupSession _) => unfold cleanupSession
  end.

Lemma alter_none f c (m : gmap string SessionState) c' : m !! c' = None -> alter f c m !! c' = None.
Proof. intros H. rewrite lookup_alter. case_decide; subst; rewrite H; reflexivity. Qed.
Lemma delete_none c (m : gmap string SessionState) c' : m !! c' = None -> delete c m !! c' = None.
Proof. intros H. rewrite lookup_delete. case_decide; [reflexivity|exact H]. Qed.

Ltac shrinks :=
  repeat match goal with
  | |- Shrinks (mbind _ _) => apply shrinks_bind; [|intros ?]
  | |- Shrinks (mret _) => intros ? ? ?; assumption
  | |- Shrinks (getSession _) => intros ? ? ?; assumption
  | |- Shrinks (emit _) => intros ? ? ?; assumption
  | |- Shrinks (modifySession _ _) => intros ? ? ?; simpl; apply alter_none; assumption
  | |- Shrinks (removeSession _) => intros ? ? ?; simpl; apply delete_none; assumption
  | |- Shrinks (match ?x with _ => _ end) => destruct x
  | |- Shrinks (if ?b then _ else _) => destruct b
  | |- Shrinks (setState _ _) => unfold setState
  | |- Shrinks (cancelFidoTimeout _) => unfold cancelFidoTimeout
  | |- Shrinks (cleanupSession _) => unfold cleanupSession
  end.

Lemma frame_setState c st : Frame c (setState c st).
Proof. frame. Qed.
Lemma frame_cleanup c : Frame c (cleanupSession c).
Proof. frame. Qed.
Lemma shrinks_setState c st : Shrinks (setState c st).
Proof. shrinks. Qed.
Lemma shrinks_cleanup c : Shrinks (cleanupSession c).
Proof. shrinks. Qed.

Lemma setState_run c st w s :
  m_sessions w !! c = Some s ->
  snd (setState c st w) =
  if decide (state s = st) then w
  else mkWorld (alter (set_state st) c (m_sessions w)) (m_nfcReaderPresent w) (out w ++ [EvStateChanged c st]).
Proof.
  intros E. unfold setState. rewrite bind_unfold, getSession_run, E. simpl.
  destruct (decide _); reflexivity.
Qed.

(** Cancelling one registered cookie: its pending result is failed and
    completed. *)
Lemma cancel_one_events c w s r :
  m_sessions w !! c = Some s -> result s = Some r ->
  EvResultSetError r "Session cleaned up" ∈ out (snd (cleanupSession c (snd (setState c CANCELLED w)))) /\
  EvResultSetCompleted r ∈ out (snd (cleanupSession c (snd (setState c CANCELLED w)))).
Proof.
  intros E Hr. rewrite (setState_run _ _ _ s E).
  destruct (decide (state s = CANCELLED)) as [Hs|Hs].
  - rewrite (cleanup_run _ _ s E), Hr. destruct (decide (state s = COMPLETED)); [congruence|]. set_solver.
  - rewrite (cleanup_run _ _ (set_state CANCELLED s)) by (simpl; rewrite lookup_alter_eq, E; reflexivity).
    simpl. rewrite Hr. destruct (decide (CANCELLED = COMPLETED)); [discriminate|]. set_solver.
Qed.

Lemma grows_setState c st : Grows (setState c st).
Proof. grows. Qed.

Lemma grows_cancelSessions cs : Grows (cancelSessions cs).
Proof. induction cs as [|c cs IH]; simpl; grows. exact IH. Qed.

Lemma cancelStep_removes h w : m_sessions (cancelStep h w) !! h = None.
Proof. apply cleanup_removes. Qed.

Lemma cancelStep_frame h w c : c <> h -> m_sessions (cancelStep h w) !! c = m_sessions w !! c.
Proof. intros Hne. unfold cancelStep. rewrite frame_cleanup by exact Hne. apply frame_setState, Hne. Qed.

Lemma cancelStep_grows h w : out w `prefix_of` out (cancelStep h w).
Proof.
  unfold cancelStep. etrans; [apply (grows_setState h CANCELLED w)|apply grows_cleanup].
Qed.

Lemma cancelStep_absent h w : m_sessions w !! h = None -> cancelStep h w = w.
Proof.
  intros E. unfold cancelStep, setState. rewrite bind_unfold, getSession_run, E. simpl.
  unfold cleanupSession. rewrite bind_unfold, getSession_run, E. reflexivity.
Qed.

Lemma cancelSessions_cons h cs w :
  snd (cancelSessions (h :: cs) w) =
  snd (cancelSessions cs (match m_sessions w !! h with Some _ => cancelStep h w | None => w end)).
Proof.
  simpl. rewrite bind_unfold, getSession_run. destruct (m_sessions w !! h); cbv beta iota.
  - rewrite bind_unfold, bind_unfold. unfold cancelStep.
    destruct (setState h CANCELLED w) as [u1 w1]. cbn [snd]. destruct (cleanupSession h w1) as [u2 w2]. reflexivity.
  - reflexivity.
Qed.

Lemma cancelAll_cons h cs w :
  snd (cancelAll (h :: cs) w) = snd (cancelAll cs (cancelStep h w)).
Proof.
  simpl. rewrite bind_unfold. unfold cancelStep.
  destruct (setState h CANCELLED w) as [u1 w1]. cbn [snd]. rewrite bind_unfold.
  destruct (cleanupSession h w1) as [u2 w2]. reflexivity.
Qed.

(** What the two cancellation loops ([cancelSessions] of
    [cancelAuthorization] and [cancelAll] of [cancelAuthentication]) do to
    the registry and to the pending results, for any [loop] that takes
    each listed cookie through [cancelStep] when it is registered. *)
Section Loop.
Variable loop : list string -> World -> World.
Hypothesis loop_nil : forall w, loop [] w = w.
Hypothesis loop_cons : forall h cs w,
  loop (h :: cs) w = loop cs (match m_sessions w !! h with Some _ => cancelStep h w | None => w end).

Lemma loop_spec cs : forall w,
  (forall c, c ∈ cs -> m_sessions (loop cs w) !! c = None) /\
  (forall c, c ∉ cs -> m_sessions (loop cs w) !! c = m_sessions w !! c) /\
  (forall c s r, c ∈ cs -> m_sessions w !! c = Some s -> result s = Some r ->
     EvResultSetError r "Session cleaned up" ∈ out (loop cs w) /\
     EvResultSetCompleted r ∈ out (loop cs w)) /\
  out w `prefix_of` out (loop cs w).
Proof.
  induction cs as [|h cs IH]; intros w.
  - rewrite loop_nil. split; [intros c Hc; set_solver|]. split; [reflexivity|].
    split; [intros c s r Hc; set_solver|reflexivity].
  - rewrite loop_cons.
    set (w1 := match m_sessions w !! h with Some _ => cancelStep h w | None => w end).
    assert (R1 : m_sessions w1 !! h = None).
    { unfold w1. destruct (m_sessions w !! h) eqn:E; [apply cancelStep_removes|exact E]. }
    assert (F1 : forall c, c <> h -> m_sessions w1 !! c = m_sessions w !! c).
    { intros c Hc. unfold w1. destruct (m_sessions w !! h); [apply cancelStep_frame, Hc|reflexivity]. }
    assert (G1 : out w `prefix_of` out w1).
    { unfold w1. destruct (m_sessions w !! h); [apply cancelStep_grows|reflexivity]. }
    destruct (IH w1) as (Hin & Hout & Hev & Hg).
    split; [|split; [|split]].
    + intros c Hc. destruct (decide (c ∈ cs)) as [Hc'|Hc']; [exact (Hin c Hc')|].
      rewrite (Hout c Hc'). assert (c = h) as -> by set_solver. exact R1.
    + intros c Hc. rewrite (Hout c) by set_solver. apply F1. set_solver.
    + intros c s r Hc E Hr. destruct (decide (c = h)) as [->|Hne].
      * assert (Hev1 : EvResultSetError r "Session cleaned up" ∈ out w1 /\ EvResultSetCompleted r ∈ out w1).
        { unfold w1. rewrite E. apply (cancel_one_events h w s r E Hr). }
        destruct Hg as [l Hl]. rewrite Hl. set_solver.
      * apply (Hev c s r); [set_solver| |exact Hr]. rewrite F1 by exact Hne. exact E.
    + etrans; [exact G1|exact Hg].
Qed.

End Loop.

Lemma cancelSessions_spec cs w :
  (forall c, c ∈ cs -> m_sessions (snd (cancelSessions cs w)) !! c = None) /\
  (forall c, c ∉ cs -> m_sessions (snd (cancelSessions cs w)) !! c = m_sessions w !! c) /\
  (forall c s r, c ∈ cs -> m_sessions w !! c = Some s -> result s = Some r ->
     EvResultSetError r "Session cleaned up" ∈ out (snd (cancelSessions cs w)) /\
     EvResultSetCompleted r ∈ out (snd (cancelSessions cs w))) /\
  out w `prefix_of` out (snd (cancelSessions cs w)).
Proof.
  apply (loop_spec (fun cs w => snd (cancelSessions cs w))).
  - intros w0. reflexivity.
  - intros h cs' w'. apply cancelSessions_cons.
Qed.

Lemma cancelAll_spec cs w :
  (forall c, c ∈ cs -> m_sessions (snd (cancelAll cs w)) !! c = None) /\
  (forall c, c ∉ cs -> m_sessions (snd (cancelAll cs w)) !! c = m_sessions w !! c) /\
  (forall c s r, c ∈ cs -> m_sessions w !! c = Some s -> result s = Some r ->
     EvResultSetError r "Session cleaned up" ∈ out (snd (cancelAll cs w)) /\
     EvResultSetCompleted r ∈ out (snd (cancelAll cs w))) /\
  out w `prefix_of` out (snd (cancelAll cs w)).
Proof.
  apply (loop_spec (fun cs w => snd (cancelAll cs w))).
  - intros w0. reflexivity.
  - intros h cs' w'. rewrite cancelAll_cons.
    destruct (m_sessions w' !! h) eqn:E; [reflexivity|].
    rewrite cancelStep_absent by exact E. reflexivity.
Qed.

Lemma in_sortedKeys m c : c ∈ sortedKeys m <-> is_Some (m !! c).
Proof.
  unfold sortedKeys. rewrite (merge_sort_Permutation _ (map fst (map_to_list m))).
  rewrite list_elem_of_fmap. split.
  - intros [[k v] [-> Hin]]. apply elem_of_map_to_list in Hin. simpl. eauto.
  - intros [v Hv]. exists (c, v). split; [reflexivity|]. apply elem_of_map_to_list. exact Hv.
Qed.

Lemma in_map_keys (m : gmap string SessionState) c : c ∈ map fst (map_to_list m) <-> is_Some (m !! c).
Proof.
  rewrite list_elem_of_fmap. split.
  - intros [[k v] [-> Hin]]. apply elem_of_map_to_list in Hin. simpl. eauto.
  - intros [v Hv]. exists (c, v). split; [reflexivity|]. apply elem_of_map_to_list. exact Hv.
Qed.

Lemma cancelAuthorization_out ag :
  exists l, out (wrapper (cancelAuthorization ag)) =
            (out (wrapper ag) ++ l ++ [EvAuthorizationResult false (m_currentActionId ag)])%list.
Proof.
  destruct ag as [w cur n]. unfold cancelAuthorization, cancelAuthorizationM.
  cbn [wrapper m_currentActionId]. rewrite bind_unfold.
  destruct (cancelSessions_spec (sortedKeys (m_sessions w)) w) as (_ & _ & _ & [l Hl]).
  destruct (cancelSessions (sortedKeys (m_sessions w)) w) as [u w1]. cbn [snd] in Hl.
  exists l. simpl. rewrite Hl, app_assoc. reflexivity.
Qed.

(** X1: [cancelAuthentication] empties the session registry; every
    registered session with a pending AsyncResult has that result failed
    with "Session cleaned up" and completed; the event log only grows. *)
Lemma X_cancelAuthentication w :
  m_sessions (snd (cancelAuthentication w)) = ∅ /\
  (forall c s r, m_sessions w !! c = Some s -> result s = Some r ->
     EvResultSetError r "Session cleaned up" ∈ out (snd (cancelAuthentication w)) /\
     EvResultSetCompleted r ∈ out (snd (cancelAuthentication w))) /\
  out w `prefix_of` out (snd (cancelAuthentication w)).
Proof.
  unfold cancelAuthentication.
  destruct (cancelAll_spec (map fst (map_to_list (m_sessions w))) w) as (Hin & Hout & Hev & Hg).
  split; [|split; [|exact Hg]].
  - apply map_empty. intros c. destruct (decide (c ∈ map fst (map_to_list (m_sessions w)))) as [Hc|Hc].
    + exact (Hin c Hc).
    + rewrite (Hout c Hc). rewrite in_map_keys in Hc. destruct (m_sessions w !! c); [|reflexivity].
      exfalso. apply Hc. eauto.
  - intros c s r E Hr. apply (Hev c s r); [apply in_map_keys; eauto|exact E|exact Hr].
Qed.

(** X2: [cancelAuthorization] empties the registry (so
    [hasActiveSessions] is false), fails and completes the pending result
    of every registered session, and ends with one
    [authorizationResult(false, m_currentActionId)]; it cancels the
    authority request and keeps [m_currentActionId]. *)
Lemma X_cancelAuthorization ag :
  m_sessions (wrapper (cancelAuthorization ag)) = ∅ /\
  hasActiveSessions (wrapper (cancelAuthorization ag)) = false /\
  (forall c s r, m_sessions (wrapper ag) !! c = Some s -> result s = Some r ->
     EvResultSetError r "Session cleaned up" ∈ out (wrapper (cancelAuthorization ag)) /\
     EvResultSetCompleted r ∈ out (wrapper (cancelAuthorization ag))) /\
  (exists l, out (wrapper (cancelAuthorization ag)) =
             (out (wrapper ag) ++ l ++ [EvAuthorizationResult false (m_currentActionId ag)])%list) /\
  m_currentActionId (cancelAuthorization ag) = m_currentActionId ag /\
  authorityCancels (cancelAuthorization ag) = S (authorityCancels ag).
Proof.
  destruct ag as [w cur n]. unfold cancelAuthorization, cancelAuthorizationM. cbn [wrapper m_currentActionId authorityCancels].
  rewrite bind_unfold.
  destruct (cancelSessions_spec (sortedKeys (m_sessions w)) w) as (Hin & Hout & Hev & Hg).
  destruct (cancelSessions (sortedKeys (m_sessions w)) w) as [u w1] eqn:Ew. cbn [snd] in *.
  assert (Hempty : m_sessions w1 = ∅).
  { apply map_empty. intros c. destruct (decide (c ∈ sortedKeys (m_sessions w))) as [Hc|Hc].
    + exact (Hin c Hc).
    + rewrite (Hout c Hc). rewrite in_sortedKeys in Hc. destruct (m_sessions w !! c); [|reflexivity].
      exfalso. apply Hc. eauto. }
  simpl. split; [exact Hempty|]. split; [unfold hasActiveSessions; simpl; rewrite Hempty; reflexivity|].
  split; [|split; [|split; reflexivity]].
  - intros c s r E Hr. destruct (Hev c s r) as [H1 H2]; [apply in_sortedKeys; eauto|exact E|exact Hr|].
    set_solver.
  - destruct Hg as [l Hl]. exists l. rewrite Hl, app_assoc. reflexivity.
Qed.

(** X3: [checkAuthorization] does not touch the sessions; a
    [cancelAuthorization] after it reports, as its last event, the action
    id of that check if the authority accepted it, and the previous
    current action id if the authority reported an error. *)
Lemma X_check_then_cancel err a d ag :
  m_sessions (wrapper (checkAuthorization err a d ag)) = m_sessions (wrapper ag) /\
  last (out (wrapper (cancelAuthorization (checkAuthorization err a d ag)))) =
  Some (EvAuthorizationResult false (match err with None => a | Some _ => m_currentActionId ag end)).
Proof.
  split; [destruct err; reflexivity|].
  destruct (cancelAuthorization_out (checkAuthorization err a d ag)) as [l Hl].
  rewrite Hl, app_assoc, last_snoc. destruct err; reflexivity.
Qed.

(** X4: [initiateAuthentication] registers the cookie with a fresh
    session in [INITIATED] (method [NONE], retry count 0, no FIDO timer),
    records the NFC reader state, and emits the state change, the start of
    the PAM conversation when there are identities, and [showAuthDialog]. *)
Lemma X_initiate a ic c h n r w :
  snd (initiateAuthentication a ic c h n r w) =
  mkWorld (<[c := {| state := INITIATED; method := NONE; cookie := c; actionId := a; retryCount := 0;
                    nfcAttempted := false; result := r; session := h; fidoTimeoutTimer := false |}]>
             (m_sessions w)) n
    (out w ++ [EvStateChanged c INITIATED] ++ (if h then [EvSessionInitiate c] else [])
           ++ [EvShowAuthDialog a ic c]).
Proof.
  destruct w as [ss nfc o].
  unfold initiateAuthentication, setState.
  cbv [mbind M_bind mret M_ret getSession modifySession emit putSession setNfcReaderPresent]; simpl.
  rewrite lookup_insert_eq. simpl. rewrite alter_insert_eq.
  destruct h; simpl; rewrite ?alter_insert_eq; rewrite <- ?app_assoc; reflexivity.
Qed.

Ltac norm E := repeat progress (simpl; rewrite ?lookup_alter_eq, ?E).

(** X5: on [completed(true)] for a registered cookie the wrapper stops
    its FIDO timer, moves it to [COMPLETED], completes the AsyncResult
    without an error, reports [authorizationResult(true)], cancels the PAM
    session and removes the cookie; the result is completed only once. *)
Lemma X_completed_true c a w s :
  m_sessions w !! c = Some s ->
  snd (onCompleted c a true w) =
  mkWorld (delete c (m_sessions w)) (m_nfcReaderPresent w)
    (out w ++ (if fidoTimeoutTimer s then [EvTimerStop c] else [])
           ++ (if decide (state s = COMPLETED) then [] else [EvStateChanged c COMPLETED])
           ++ match result s with Some r => [EvResultSetCompleted r] | None => [] end
           ++ [EvAuthorizationResult true a]
           ++ (if session s then [EvSessionCancel c] else [])).
Proof.
  destruct w as [ss nfc o]; simpl. intros E.
  unfold onCompleted, completeAsyncResult, cleanupSession, cancelFidoTimeout, setState.
  cbv [mbind M_bind mret M_ret getSession modifySession emit removeSession].
  norm E.
  destruct (fidoTimeoutTimer s) eqn:Ht; norm E;
  destruct (decide (state s = COMPLETED)); norm E;
  destruct (result s) as [r|] eqn:Hr; norm E;
  rewrite ?Ht; norm E;
  destruct (session s) eqn:Hs; norm E;
  rewrite ?Hr, ?Ht, ?Hs; norm E;
  repeat (destruct (decide _); try congruence; norm E);
  rewrite ?delete_alter_eq; rewrite <- ?app_assoc, ?app_nil_r; try reflexivity.
Qed.

Lemma X_completed_true_witness :
  m_sessions w2 !! "c2" = Some lockedSession /\
  out (snd (onCompleted "c2" "org.example.lock" true w2)) =
    [EvStateChanged "c2" COMPLETED; EvResultSetCompleted 3%N;
     EvAuthorizationResult true "org.example.lock"; EvSessionCancel "c2"].
Proof.
  split; [reflexivity|].
  rewrite (X_completed_true "c2" "org.example.lock" w2 lockedSession eq_refl). vm_compute. reflexivity.
Defined.

(** X6: on [showError] for a registered cookie the wrapper moves it to
    [ERROR], reports the error, fails and completes the AsyncResult with
    "Session error: " and the text, reports [authorizationResult(false)]
    and cleans the session up; since [ERROR] is not [COMPLETED], cleanup
    fails and completes the same AsyncResult a second time. *)
Lemma X_showError c a text w s :
  m_sessions w !! c = Some s ->
  snd (onShowError c a text w) =
  mkWorld (delete c (m_sessions w)) (m_nfcReaderPresent w)
    (out w ++ (if decide (state s = ERROR) then [] else [EvStateChanged c ERROR])
           ++ [EvAuthenticationError c ERROR (method s) (getDefaultErrorMessage ERROR (method s)) text]
           ++ match result s with
              | Some r => [EvResultSetError r ("Session error: " ++ text)%string; EvResultSetCompleted r]
              | None => [] end
           ++ [EvAuthorizationResult false a]
           ++ (if fidoTimeoutTimer s then [EvTimerStop c] else [])
           ++ (if session s then [EvSessionCancel c] else [])
           ++ match result s with
              | Some r => [EvResultSetError r "Session cleaned up"; EvResultSetCompleted r]
              | None => [] end).
Proof.
  destruct w as [ss nfc o]; simpl. intros E.
  unfold onShowError, cleanupSession, cancelFidoTimeout, setState.
  cbv [mbind M_bind mret M_ret getSession modifySession emit removeSession].
  norm E.
  destruct (decide (state s = ERROR)); norm E;
  destruct (result s) as [r|] eqn:Hr; norm E;
  destruct (fidoTimeoutTimer s) eqn:Ht; norm E;
  destruct (session s) eqn:Hs; norm E;
  rewrite ?Hr, ?Ht, ?Hs; norm E;
  repeat (destruct (decide _); try congruence; norm E);
  rewrite ?delete_alter_eq; rewrite <- ?app_assoc, ?app_nil_r; try reflexivity.
Qed.

Lemma X_showError_witness :
  m_sessions w2 !! "c2" = Some lockedSession /\
  out (snd (onShowError "c2" "org.example.lock" "pam failure" w2)) =
    [EvStateChanged "c2" ERROR;
     EvAuthenticationError "c2" ERROR PASSWORD (getDefaultErrorMessage ERROR PASSWORD) "pam failure";
     EvResultSetError 3%N "Session error: pam failure"; EvResultSetCompleted 3%N;
     EvAuthorizationResult false "org.example.lock"; EvSessionCancel "c2";
     EvResultSetError 3%N "Session cleaned up"; EvResultSetCompleted 3%N].
Proof.
  split; [reflexivity|].
  rewrite (X_showError "c2" "org.example.lock" "pam failure" w2 lockedSession eq_refl). reflexivity.
Defined.

(** X7: a PAM [request] for a live session that is not locked out, with an
    NFC reader present and no FIDO attempt yet, switches it to
    [TRYING_FIDO] with method [FIDO], marks the attempt, restarts the
    fallback timer and answers PAM with an empty response; no other
    session changes and no password prompt is shown. *)
Lemma X_request_fido c a rq e w s :
  m_sessions w !! c = Some s -> session s = true -> state s <> MAX_RETRIES_EXCEEDED ->
  m_nfcReaderPresent w = true -> nfcAttempted s = false ->
  m_sessions (snd (onRequest c a rq e w)) !! c =
    Some {| state := TRYING_FIDO; method := FIDO; cookie := cookie s; actionId := actionId s;
            retryCount := retryCount s; nfcAttempted := true; result := result s;
            session := true; fidoTimeoutTimer := true |} /\
  (forall c', c' <> c -> m_sessions (snd (onRequest c a rq e w)) !! c' = m_sessions w !! c') /\
  out (snd (onRequest c a rq e w)) =
    out w ++ (if decide (state s = TRYING_FIDO) then [] else [EvStateChanged c TRYING_FIDO])
          ++ (if decide (method s = FIDO) then [] else [EvMethodChanged c FIDO])
          ++ (if fidoTimeoutTimer s then [EvTimerStop c] else [])
          ++ [EvTimerStart c; EvSessionSetResponse c ""].
Proof.
  destruct w as [ss nfc o]; simpl. intros E Hs Hm Hn Ha. subst nfc.
  unfold onRequest, startFidoTimeout, setMethod, setState.
  cbv [mbind M_bind mret M_ret getSession modifySession emit removeSession getNfcReaderPresent].
  norm E. rewrite Hs, Ha. simpl. destruct (decide (state s = MAX_RETRIES_EXCEEDED)); [contradiction|].
  norm E.
  destruct s as [st m ck ai rc na rs se tm]; simpl in *; subst.
  destruct (decide (st = TRYING_FIDO)); norm E;
  destruct (decide (m = FIDO)); norm E;
  destruct tm; norm E;
  repeat (destruct (decide _); try congruence; norm E);
  (split; [rewrite ?lookup_alter_eq, ?E; simpl; subst; reflexivity|
   split; [intros c' Hc'; rewrite ?lookup_alter_ne by congruence; reflexivity|
           rewrite <- ?app_assoc, ?app_nil_r; reflexivity]]).
Qed.

Lemma X_request_fido_witness :
  m_sessions w2_nfc !! "c2" = Some lockedSession /\ session lockedSession = true /\
  state lockedSession <> MAX_RETRIES_EXCEEDED /\ m_nfcReaderPresent w2_nfc = true /\
  nfcAttempted lockedSession = false /\
  state <$> m_sessions (snd (onRequest "c2" "org.example.lock" "Password: " false w2_nfc)) !! "c2"
    = Some TRYING_FIDO.
Proof.
  split; [reflexivity|]. split; [reflexivity|]. split; [discriminate|].
  split; [reflexivity|]. split; [reflexivity|].
  destruct (X_request_fido "c2" "org.example.lock" "Password: " false w2_nfc lockedSession
              eq_refl eq_refl ltac:(discriminate) eq_refl eq_refl) as [H _].
  rewrite H. reflexivity.
Defined.

(** X8: a PAM [request] for a live session that is not locked out and
    will not try FIDO moves it to [WAITING_FOR_PASSWORD] with method
    [PASSWORD] and emits [showPasswordRequest]; if FIDO was already tried,
    its timer is stopped and a [FIDO_FAILED] state and a method-failed
    event come first. No other session changes. *)
Lemma X_request_password c a rq e w s :
  m_sessions w !! c = Some s -> session s = true -> state s <> MAX_RETRIES_EXCEEDED ->
  (m_nfcReaderPresent w && negb (nfcAttempted s)) = false ->
  m_sessions (snd (onRequest c a rq e w)) !! c =
    Some {| state := WAITING_FOR_PASSWORD; method := PASSWORD; cookie := cookie s;
            actionId := actionId s; retryCount := retryCount s; nfcAttempted := nfcAttempted s;
            result := result s; session := true;
            fidoTimeoutTimer := if nfcAttempted s then false else fidoTimeoutTimer s |} /\
  (forall c', c' <> c -> m_sessions (snd (onRequest c a rq e w)) !! c' = m_sessions w !! c') /\
  out (snd (onRequest c a rq e w)) =
    out w ++ (if nfcAttempted s then
                (if fidoTimeoutTimer s then [EvTimerStop c] else [])
                ++ (if decide (state s = FIDO_FAILED) then [] else [EvStateChanged c FIDO_FAILED])
                ++ [EvMethodFailed c FIDO "FIDO authentication failed";
                    EvStateChanged c WAITING_FOR_PASSWORD]
              else if decide (state s = WAITING_FOR_PASSWORD) then []
              else [EvStateChanged c WAITING_FOR_PASSWORD])
          ++ (if decide (method s = PASSWORD) then [] else [EvMethodChanged c PASSWORD])
          ++ [EvShowPasswordRequest a rq e c].
Proof.
  destruct w as [ss nfc o]; simpl. intros E Hs Hm Hn.
  unfold onRequest, cancelFidoTimeout, setMethod, setState.
  cbv [mbind M_bind mret M_ret getSession modifySession emit removeSession getNfcReaderPresent].
  norm E. rewrite Hs. simpl. destruct (decide (state s = MAX_RETRIES_EXCEEDED)); [contradiction|].
  norm E. rewrite Hn. norm E.
  destruct s as [st m ck ai rc na rs se tm]; simpl in *; subst.
  destruct na; norm E;
  destruct (decide (st = FIDO_FAILED)); norm E;
  destruct (decide (st = WAITING_FOR_PASSWORD)); norm E;
  destruct (decide (m = PASSWORD)); norm E;
  destruct tm; norm E;
  repeat (destruct (decide _); try congruence; norm E);
  try congruence;
  (split; [rewrite ?lookup_alter_eq, ?E; simpl; subst; reflexivity|
   split; [intros c' Hc'; rewrite ?lookup_alter_ne by congruence; reflexivity|
           rewrite <- ?app_assoc, ?app_nil_r; reflexivity]]).
Qed.

Lemma X_request_password_witness :
  m_sessions w2 !! "c2" = Some lockedSession /\ session lockedSession = true /\
  state lockedSession <> MAX_RETRIES_EXCEEDED /\
  (m_nfcReaderPresent w2 && negb (nfcAttempted lockedSession)) = false /\
  state <$> m_sessions (snd (onRequest "c2" "org.example.lock" "Password: " false w2)) !! "c2"
    = Some WAITING_FOR_PASSWORD.
Proof.
  split; [reflexivity|]. split; [reflexivity|]. split; [discriminate|]. split; [reflexivity|].
  destruct (X_request_password "c2" "org.example.lock" "Password: " false w2 lockedSession
              eq_refl eq_refl ltac:(discriminate) eq_refl) as [H _].
  rewrite H. reflexivity.
Defined.

End WrapperFacts.

(* ===================================================================== *)
(* Part 10. Facts about the validator's per-type checks                   *)
(* ===================================================================== *)

Module ValidatorFacts.
Import Json Validator.

Lemma cookieCharsOk_spec c :
  cookieCharsOk c = true <->
  Forall (fun ch => isLetterOrNumber ch = true \/ ch = "-"%char \/ ch = "_"%char) (String.list_ascii_of_string c).
Proof.
  induction c as [|ch c IH]; simpl.
  - split; [constructor|reflexivity].
  - rewrite Forall_cons, <- IH.
    destruct (isLetterOrNumber ch) eqn:H1; simpl.
    + tauto.
    + destruct (bool_decide (ch = "-"%char)) eqn:H2; simpl.
      * apply bool_decide_eq_true in H2. tauto.
      * apply bool_decide_eq_false in H2.
        destruct (bool_decide (ch = "_"%char)) eqn:H3; simpl.
        -- apply bool_decide_eq_true in H3. tauto.
        -- apply bool_decide_eq_false in H3. split; [discriminate|]. intros [[?|[?|?]] _]; congruence.
Qed.

Lemma containsChar_nonempty ch s : containsChar ch s = true -> s <> "".
Proof. destruct s; simpl; congruence. Qed.

(** X9: [validateSubmitAuthentication] accepts a message exactly when
    "cookie" is a string of 1 to [MAX_COOKIE_LENGTH] characters, each a
    letter, a digit, '-' or '_', and "response" is a string of at most
    [MAX_RESPONSE_LENGTH] characters (possibly empty). *)
Lemma X_validate_submit m :
  validateSubmitAuthentication m = success <->
  (exists c, m !! "cookie" = Some (JString c) /\ 1 <= String.length c <= MAX_COOKIE_LENGTH /\
     Forall (fun ch => isLetterOrNumber ch = true \/ ch = "-"%char \/ ch = "_"%char)
       (String.list_ascii_of_string c)) /\
  (exists r, m !! "response" = Some (JString r) /\ String.length r <= MAX_RESPONSE_LENGTH).
Proof.
  unfold validateSubmitAuthentication, validateString.
  destruct (m !! "cookie") as [[| | |c]|] eqn:Ec;
    try (split; [discriminate|intros [[c' [H _]] _]; discriminate]).
  destruct (decide (MAX_COOKIE_LENGTH < String.length c)) as [Hl|Hl];
    [split; [discriminate|intros [[c' [H [? _]]] _]; injection H as <-; lia]|].
  destruct (m !! "response") as [[| | |r]|] eqn:Er;
    try (split; [discriminate|intros [_ [r' [H _]]]; discriminate]).
  destruct (decide (MAX_RESPONSE_LENGTH < String.length r)) as [Hr|Hr];
    [split; [discriminate|intros [_ [r' [H ?]]]; injection H as <-; lia]|].
  simpl. destruct (decide (c = "")) as [->|Hne].
  - split; [discriminate|]. intros [[c' [H [? _]]] _]. injection H as <-. simpl in *. lia.
  - destruct (cookieCharsOk c) eqn:Hok.
    + split; [|reflexivity]. intros _. split; [|exists r; split; [reflexivity|lia]].
      exists c. split; [reflexivity|]. split; [|apply cookieCharsOk_spec, Hok].
      destruct c; simpl in *; [congruence|lia].
    + split; [discriminate|]. intros [[c' [H [_ Hf]]] _]. injection H as <-.
      apply cookieCharsOk_spec in Hf. congruence.
Qed.

(** X10: [validateCheckAuthorization] accepts a message exactly when
    "action_id" is a string of at most [MAX_ACTION_ID_LENGTH] characters
    containing a '.', and "details", if present, is a string of at most
    [MAX_STRING_LENGTH] characters. *)
Lemma X_validate_check m :
  validateCheckAuthorization m = success <->
  (exists a, m !! "action_id" = Some (JString a) /\ String.length a <= MAX_ACTION_ID_LENGTH /\
             containsChar "." a = true) /\
  match m !! "details" with
  | None => True
  | Some (JString d) => String.length d <= MAX_STRING_LENGTH
  | Some _ => False
  end.
Proof.
  unfold validateCheckAuthorization, validateString.
  destruct (m !! "action_id") as [[| | |a]|] eqn:Ea;
    try (split; [discriminate|intros [[a' [H _]] _]; discriminate]).
  destruct (decide (MAX_ACTION_ID_LENGTH < String.length a)) as [Hl|Hl];
    [split; [discriminate|intros [[a' [H [? _]]] _]; injection H as <-; lia]|].
  destruct (m !! "details") as [[| | |d]|] eqn:Ed; cbv beta iota;
    try (rewrite decide_True by eauto; simpl; split; [discriminate|tauto]).
  - rewrite decide_True by eauto. cbv beta iota.
    destruct (decide (MAX_STRING_LENGTH < String.length d)) as [Hd|Hd]; [split; [discriminate|lia]|].
    cbn [toString]. destruct (decide (a = "")) as [->|Hne]; [split; [discriminate|intros [[a' [H [_ Hc]]] _]; injection H as <-; discriminate]|].
    destruct (containsChar "." a) eqn:Hc; simpl.
    + split; [intros _; split; [exists a; split; [reflexivity|split; [lia|exact Hc]]|lia]|reflexivity].
    + split; [discriminate|intros [[a' [H [_ Hc']]] _]; injection H as <-; congruence].
  - rewrite decide_False by (intros [? ?]; discriminate).
    cbn [toString]. destruct (decide (a = "")) as [->|Hne]; [split; [discriminate|intros [[a' [H [_ Hc]]] _]; injection H as <-; discriminate]|].
    destruct (containsChar "." a) eqn:Hc; simpl.
    + split; [intros _; split; [exists a; split; [reflexivity|split; [lia|exact Hc]]|exact I]|reflexivity].
    + split; [discriminate|intros [[a' [H [_ Hc']]] _]; injection H as <-; congruence].
Qed.

End ValidatorFacts.

(* ===================================================================== *)
(* Part 11. Facts about HMAC generation                                   *)
(* ===================================================================== *)

Module HmacFacts.
Import Json Security SecurityExt Sha256 PropsExt.
Local Open Scope list_scope.

Lemma round_length st kw : length (round st kw) = length st.
Proof.
  unfold round.
  do 8 (destruct st as [|? st]; [reflexivity|]). destruct st; reflexivity.
Qed.

Lemma fold_round_length kws st : length (fold_left round kws st) = length st.
Proof.
  revert st. induction kws as [|kw kws IH]; intros st; simpl; [reflexivity|].
  rewrite IH. apply round_length.
Qed.

Lemma compress_length hs block : length (compress hs block) = length hs.
Proof.
  unfold compress. rewrite length_zip_with, fold_round_length. lia.
Qed.

Lemma fold_compress_length bs hs : length (fold_left compress bs hs) = length hs.
Proof.
  revert hs. induction bs as [|b bs IH]; intros hs; simpl; [reflexivity|].
  rewrite IH. apply compress_length.
Qed.

Lemma H0_length : length H0 = 8%nat.
Proof. vm_compute. reflexivity. Qed.

Lemma be_bytes_length n x : length (be_bytes n x) = n.
Proof. unfold be_bytes. rewrite length_map, length_seq. reflexivity. Qed.

Lemma be_bytes_range n x b : b ∈ be_bytes n x -> (0 <= b < 256)%Z.
Proof.
  unfold be_bytes. intros Hb. apply list_elem_of_fmap in Hb as [i [-> _]].
  change 255%Z with (Z.ones 8). rewrite Z.land_ones by lia.
  apply Z.mod_pos_bound. lia.
Qed.

Lemma concat_be_bytes_length l : length (concat (map (be_bytes 4) l)) = (4 * length l)%nat.
Proof.
  induction l as [|x l IH]; cbn [map concat]; [reflexivity|].
  rewrite length_app, be_bytes_length, IH. cbn [length]. lia.
Qed.

Lemma sha256_length msg : length (sha256 msg) = 32%nat.
Proof.
  unfold sha256. rewrite concat_be_bytes_length, fold_compress_length, H0_length. reflexivity.
Qed.

Lemma sha256_range msg b : b ∈ sha256 msg -> (0 <= b < 256)%Z.
Proof.
  unfold sha256. rewrite list_elem_of_In, in_concat. intros [l [Hl Hb]].
  apply list_elem_of_In, list_elem_of_fmap in Hl as [x [-> _]].
  apply list_elem_of_In in Hb. exact (be_bytes_range _ _ _ Hb).
Qed.

Lemma hexchar_digit u : (0 <= u < 16)%Z -> hexchar u ∈ hexDigits.
Proof.
  intros Hu.
  assert (u = 0 \/ u = 1 \/ u = 2 \/ u = 3 \/ u = 4 \/ u = 5 \/ u = 6 \/ u = 7 \/ u = 8 \/ u = 9
          \/ u = 10 \/ u = 11 \/ u = 12 \/ u = 13 \/ u = 14 \/ u = 15)%Z as Hc by lia.
  repeat destruct Hc as [->|Hc]; subst; vm_compute; set_solver.
Qed.

Lemma toHex_spec bs :
  Forall (fun b => 0 <= b < 256)%Z bs ->
  String.length (toHex bs) = (2 * length bs)%nat /\
  Forall (fun ch => ch ∈ hexDigits) (String.list_ascii_of_string (toHex bs)).
Proof.
  induction bs as [|b bs IH]; intros Hf; simpl; [split; [reflexivity|constructor]|].
  inversion Hf as [|? ? Hb Hbs]; subst. destruct (IH Hbs) as [IH1 IH2].
  split; [rewrite IH1; lia|].
  constructor; [|constructor; [|exact IH2]]; apply hexchar_digit.
  - rewrite Z.shiftr_div_pow2 by lia. split; [apply Z.div_pos; lia|].
    apply Z.div_lt_upper_bound; lia.
  - change 15%Z with (Z.ones 4). rewrite Z.land_ones by lia. apply Z.mod_pos_bound. lia.
Qed.

(** X11: once the manager is initialized, every HMAC it generates is 64
    lowercase hexadecimal characters (a SHA-256 digest); before
    initialization [generateHMAC] returns the empty string and
    [verifyMessage] rejects every message. *)
Lemma X_hmac_format sm data :
  (if s_initialized sm then
     String.length (generateHMAC sm data) = 64%nat /\
     Forall (fun ch => ch ∈ hexDigits) (String.list_ascii_of_string (generateHMAC sm data))
   else generateHMAC sm data = "" /\ forall now m, verifyMessage sm now m = false).
Proof.
  unfold generateHMAC. destruct (s_initialized sm) eqn:Hi.
  - unfold hmac_sha256.
    match goal with |- context [toHex (sha256 ?x)] => set (msg := x) end.
    assert (Hf : Forall (fun b => 0 <= b < 256)%Z (sha256 msg)).
    { apply Forall_forall. intros b Hb. exact (sha256_range _ _ Hb). }
    destruct (toHex_spec _ Hf) as [H1 H2]. rewrite sha256_length in H1. split; [exact H1|exact H2].
  - split; [reflexivity|]. intros now m. unfold verifyMessage, verifyHMAC. rewrite Hi.
    destruct (negb _); reflexivity.
Qed.

End HmacFacts.

(* ===================================================================== *)
(* Part 12. Facts about the run0 message transformation                   *)
(* ===================================================================== *)

Module TransformFacts.
Import Validator PolkitExt PropsExt.

Lemma splitOn_parts sep s p : p ∈ splitOn sep s -> containsChar sep p = false.
Proof.
  revert p. induction s as [|ch s IH]; intros p Hp; simpl in Hp.
  - apply list_elem_of_singleton in Hp. subst. reflexivity.
  - destruct (decide (ch = sep)) as [->|Hne].
    + apply elem_of_cons in Hp as [->|Hp]; [reflexivity|exact (IH p Hp)].
    + destruct (splitOn sep s) as [|q qs] eqn:E.
      * apply list_elem_of_singleton in Hp. subst. simpl. rewrite decide_False by exact Hne. reflexivity.
      * apply elem_of_cons in Hp as [->|Hp].
        -- simpl. rewrite decide_False by exact Hne. apply IH. left.
        -- apply IH. right. exact Hp.
Qed.

Lemma lastComponent_noslash s : containsChar "/" (lastComponent s) = false.
Proof.
  unfold lastComponent. destruct (containsChar "/" s) eqn:Hs; [|exact Hs].
  destruct (last (splitOn "/" s)) as [p|] eqn:E; simpl; [|reflexivity].
  apply (splitOn_parts "/" s p). apply last_Some_elem_of. exact E.
Qed.

Lemma findTarget_ind (P : list string -> Prop) :
  P [] -> (forall x rest, (forall l, length l < length (x :: rest) -> P l) -> P (x :: rest)) ->
  forall l, P l.
Proof.
  intros H0 HS l. remember (length l) as n eqn:En. revert l En.
  induction (lt_wf n) as [n _ IH]. intros [|x rest] En; [exact H0|].
  apply HS. intros l Hl. apply (IH (length l)); [subst; exact Hl|reflexivity].
Qed.

Lemma findTarget_noslash rest t : findTargetCommand rest = Some t -> containsChar "/" t = false.
Proof.
  revert t. induction rest as [|arg rest IH] using findTarget_ind; intros t Ht; [discriminate|].
  simpl in Ht.
  destruct (String.prefix "--" arg || String.prefix "-" arg).
  - destruct (containsChar "=" arg); [apply (IH rest); simpl; [lia|exact Ht]|].
    destruct rest as [|next rest'']; [discriminate|].
    destruct (negb (String.prefix "-" next)); [apply (IH rest''); simpl; [lia|exact Ht]|].
    apply (IH (next :: rest'')); simpl; [lia|exact Ht].
  - injection Ht as <-. apply lastComponent_noslash.
Qed.

Lemma extractCommand_noslash args : containsChar "/" (extractCommand args) = false.
Proof.
  destruct args as [|first rest]; [reflexivity|]. simpl.
  destruct (bool_decide _ || bool_decide _).
  - destruct (findTargetCommand rest) as [t|] eqn:Ht; [exact (findTarget_noslash _ _ Ht)|].
    destruct (decide _); apply lastComponent_noslash.
  - apply lastComponent_noslash.
Qed.

(** X12: when the option-skipping loop over the arguments after
    systemd-run/run0 finds a command, it is the last path component of an
    argument [x] not starting with '-', and the argument just before [x]
    (if any) does not start with '-' or contains '='; a value-taking
    option therefore consumes the argument after it. *)
Lemma X_findTarget rest t :
  findTargetCommand rest = Some t ->
  exists pre x post, rest = (pre ++ x :: post)%list /\ t = lastComponent x /\
    String.prefix "-" x = false /\
    match last pre with
    | None => True
    | Some p => String.prefix "-" p = false \/ containsChar "=" p = true
    end.
Proof.
  revert t. induction rest as [|arg rest IH] using findTarget_ind; intros t Ht; [discriminate|].
  simpl in Ht.
  destruct (String.prefix "--" arg || String.prefix "-" arg) eqn:Hopt.
  - destruct (containsChar "=" arg) eqn:Heq.
    + destruct (IH rest ltac:(simpl; lia) t Ht) as (pre & x & post & -> & Ht' & Hx & Hl).
      exists (arg :: pre), x, post. split; [reflexivity|]. split; [exact Ht'|]. split; [exact Hx|].
      destruct pre as [|p pre]; [simpl; right; exact Heq|]. rewrite last_cons_cons. exact Hl.
    + destruct rest as [|next rest'']; [discriminate|].
      destruct (String.prefix "-" next) eqn:Hn; simpl in Ht.
      * destruct (IH (next :: rest'') ltac:(simpl; lia) t Ht) as (pre & x & post & Hr & Ht' & Hx & Hl).
        destruct pre as [|p pre].
        -- simpl in Hr. injection Hr as -> _. congruence.
        -- exists (arg :: p :: pre), x, post. rewrite Hr. split; [reflexivity|].
           split; [exact Ht'|]. split; [exact Hx|]. rewrite last_cons_cons. exact Hl.
      * destruct (IH rest'' ltac:(simpl; lia) t Ht) as (pre & x & post & -> & Ht' & Hx & Hl).
        exists (arg :: next :: pre), x, post. split; [reflexivity|]. split; [exact Ht'|].
        split; [exact Hx|]. rewrite last_cons_cons.
        destruct pre as [|p pre]; [simpl; left; exact Hn|]. rewrite last_cons_cons. exact Hl.
  - injection Ht as <-. exists [], arg, rest. split; [reflexivity|]. split; [reflexivity|].
    split; [|exact I]. apply orb_false_iff in Hopt. apply Hopt.
Qed.

Lemma X_findTarget_witness :
  findTargetCommand run0_args = Some "hosts" /\
  exists x, x ∈ run0_args /\ String.prefix "-" x = false /\ lastComponent x = "hosts".
Proof.
  split; [reflexivity|].
  destruct (X_findTarget run0_args "hosts" eq_refl) as (pre & x & post & Hr & Ht & Hx & _).
  exists x. split; [rewrite Hr; set_solver|]. split; [exact Hx|symmetry; exact Ht].
Defined.

(** X13: [transformAuthMessage] returns the message unchanged when
    QUICKSHELL_POLKIT_DISABLE_TRANSFORM is set to anything other than "0"
    or (in any case) "false", when the action is not
    org.freedesktop.systemd1.manage-units, or when the message does not
    contain "transient" in any case. *)
Lemma X_transform_unchanged ta rf dis tpl a msg d :
  (dis <> "" /\ dis <> "0" /\ toLower dis <> "false") \/
  a <> "org.freedesktop.systemd1.manage-units" \/ containsCI "transient" msg = false ->
  transformAuthMessage ta rf dis tpl a msg d = msg.
Proof.
  intros H. unfold transformAuthMessage.
  destruct (negb (bool_decide (dis = "")) && negb (bool_decide (dis = "0"))
            && negb (bool_decide (toLower dis = "false"))) eqn:Hd; [reflexivity|].
  destruct (decide (a = "org.freedesktop.systemd1.manage-units")) as [Ha|Ha]; [|reflexivity].
  destruct (containsCI "transient" msg) eqn:Ht; [|reflexivity].
  exfalso. destruct H as [(H1 & H2 & H3)|[H|H]]; [|contradiction|discriminate].
  rewrite !bool_decide_false in Hd by assumption. discriminate.
Qed.

Lemma X_transform_unchanged_witness :
  ("yes" <> "" /\ "yes" <> "0" /\ toLower "yes" <> "false") /\
  transformAuthMessage keepTemplate noCmdline "yes" "" "org.freedesktop.systemd1.manage-units"
    "Starting transient unit" ∅ = "Starting transient unit".
Proof.
  assert (H : "yes" <> "" /\ "yes" <> "0" /\ toLower "yes" <> "false").
  { split; [discriminate|]. split; [discriminate|]. intros Hc. vm_compute in Hc. discriminate. }
  split; [exact H|]. apply X_transform_unchanged. left. exact H.
Defined.

(** X14: without a custom template, [transformAuthMessage] returns the
    message itself, the generic "run command" sentence, or the sentence
    naming a command that is non-empty, differs from the action id and
    contains no '/'. *)
Lemma X_transform_default ta rf dis a msg d :
  transformAuthMessage ta rf dis "" a msg d = msg \/
  transformAuthMessage ta rf dis "" a msg d =
    "Authentication required to run command with elevated privileges" \/
  exists cmd, cmd <> "" /\ cmd <> a /\ containsChar "/" cmd = false /\
    transformAuthMessage ta rf dis "" a msg d =
      "Authentication required to run '" ++ cmd ++ "' with elevated privileges".
Proof.
  unfold transformAuthMessage.
  destruct (_ && _ && _); [left; reflexivity|].
  destruct (decide _); [|left; reflexivity].
  destruct (containsCI "transient" msg); [|left; reflexivity].
  rewrite bool_decide_true by reflexivity. simpl.
  set (ci := if decide (default "" (d !! "polkit.subject-pid") = "") then "" else _).
  assert (Hci : containsChar "/" ci = false).
  { unfold ci. destruct (decide _); [reflexivity|].
    destruct (rf _); [apply extractCommand_noslash|reflexivity]. }
  destruct (bool_decide (ci = "")) eqn:H1; simpl; [right; left; reflexivity|].
  destruct (bool_decide (ci = a)) eqn:H2; simpl; [right; left; reflexivity|].
  right; right. exists ci. apply bool_decide_eq_false in H1, H2. split; [exact H1|].
  split; [exact H2|]. split; [exact Hci|reflexivity].
Qed.

End TransformFacts.

(* ===================================================================== *)
(* Part 13. Facts about the IPC server's connection handling              *)
(* ===================================================================== *)

Module ServerFacts.
Import Json Validator Security Ipc IpcExt PropsExt Scenarios.
Local Open Scope list_scope.

Lemma validate_type m :
  validateMessage m = success ->
  toString (m !! "type") = "check_authorization" \/ toString (m !! "type") = "cancel_authorization" \/
  toString (m !! "type") = "submit_authentication".
Proof.
  unfold validateMessage, validateMessageType.
  destruct (m !! "type") as [[| | |t]|]; try discriminate.
  destruct (decide (t ∈ VALID_MESSAGE_TYPES)) as [Ht|Ht]; [|discriminate]. intros _.
  unfold VALID_MESSAGE_TYPES in Ht. simpl.
  repeat (apply elem_of_cons in Ht as [->|Ht]; [tauto|]). set_solver.
Qed.

Lemma send_calls m st : calls (sendMessageToClient m st) = calls st.
Proof. unfold sendMessageToClient. destruct (connected st); reflexivity. Qed.

Lemma send_start m st : m_sessionStartTime (sendMessageToClient m st) = m_sessionStartTime st.
Proof. unfold sendMessageToClient. destruct (connected st); reflexivity. Qed.

(** X15: [handleClientMessage] calls into the wrapper at most once, and
    only for a message admitted by the rate limiter, in an unexpired
    session, that passes validation and, when it carries an "hmac", passes
    HMAC verification. *)
Lemma X_handle_gate MAX sm now message st :
  calls (handleClientMessage MAX sm now message st) = calls st \/
  exists k, calls (handleClientMessage MAX sm now message st) = calls st ++ [k] /\
    fst (checkRateLimit MAX now (m_messageTimestamps st)) = true /\
    isSessionExpired now (m_sessionStartTime st) = false /\
    validateMessage message = success /\
    (is_Some (message !! "hmac") -> verifyMessage sm now message = true).
Proof.
  unfold handleClientMessage. destruct (checkRateLimit MAX now (m_messageTimestamps st)) as [ok window] eqn:Er.
  simpl. destruct ok; simpl; [|left; unfold sendErrorToClient; rewrite send_calls; reflexivity].
  destruct (isSessionExpired now (m_sessionStartTime st)) eqn:Hx; simpl.
  { left. reflexivity. }
  destruct (validateMessage message) eqn:Hv; [|left; unfold sendErrorToClient; rewrite send_calls; reflexivity].
  destruct (bool_decide (is_Some (message !! "hmac")) && negb (verifyMessage sm now message)) eqn:Hh.
  { left. unfold sendErrorToClient. rewrite send_calls. reflexivity. }
  assert (Hver : is_Some (message !! "hmac") -> verifyMessage sm now message = true).
  { intros Hs. rewrite bool_decide_true in Hh by exact Hs. destruct (verifyMessage sm now message); [reflexivity|discriminate]. }
  unfold dispatch.
  destruct (decide (toString (message !! "type") = "check_authorization")).
  { right. eexists. split; [reflexivity|]. auto. }
  destruct (decide (toString (message !! "type") = "cancel_authorization")).
  { right. eexists. split; [reflexivity|]. auto. }
  destruct (decide (toString (message !! "type") = "submit_authentication")).
  { right. eexists. split; [reflexivity|]. auto. }
  destruct (validate_type message Hv) as [?|[?|?]]; contradiction.
Qed.

(** X16: [handleClientMessage] either leaves the session start time
    alone or sets it to the current time while making one wrapper call
    that is not [cancelAuthorization]: only check_authorization and
    submit_authentication reset the session timeout, and the heartbeat
    branch is never reached after validation. *)
Lemma X_handle_session_start MAX sm now message st :
  m_sessionStartTime (handleClientMessage MAX sm now message st) = m_sessionStartTime st \/
  (m_sessionStartTime (handleClientMessage MAX sm now message st) = now /\
   exists k, calls (handleClientMessage MAX sm now message st) = calls st ++ [k] /\
             k <> CallCancelAuthorization).
Proof.
  unfold handleClientMessage. destruct (checkRateLimit MAX now (m_messageTimestamps st)) as [ok window].
  simpl. destruct ok; simpl; [|left; unfold sendErrorToClient; rewrite send_start; reflexivity].
  destruct (isSessionExpired now (m_sessionStartTime st)) eqn:Hx; simpl.
  { left. reflexivity. }
  destruct (validateMessage message) eqn:Hv; [|left; unfold sendErrorToClient; rewrite send_start; reflexivity].
  destruct (_ && _); [left; unfold sendErrorToClient; rewrite send_start; reflexivity|].
  unfold dispatch.
  destruct (decide (toString (message !! "type") = "check_authorization")).
  { right. split; [reflexivity|]. eexists. split; [reflexivity|discriminate]. }
  destruct (decide (toString (message !! "type") = "cancel_authorization")).
  { left. reflexivity. }
  destruct (decide (toString (message !! "type") = "submit_authentication")).
  { right. split; [reflexivity|]. eexists. split; [reflexivity|discriminate]. }
  destruct (validate_type message Hv) as [?|[?|?]]; contradiction.
Qed.

(** X17: [onSessionTimeout] does nothing unless the session is expired
    and a client is present; then it writes the timeout error if the
    socket is connected (the error is never queued otherwise) and
    requests one disconnect, keeping the client and connection version. *)
Lemma X_sessionTimeout now cn :
  onSessionTimeout now cn =
  if bool_decide (SESSION_TIMEOUT_MS < now - m_sessionStartTime (srv cn))%Z && m_currentClient cn then
    mkConn (add_disconnect (if connected (srv cn) then add_written [errorMessage "Session timeout - please reconnect"] (srv cn) else srv cn))
      true (m_clientConnectionVersion cn)
  else cn.
Proof.
  unfold onSessionTimeout, isSessionExpired.
  destruct (bool_decide _); [|reflexivity]. destruct (m_currentClient cn) eqn:Hc; [|reflexivity].
  simpl. unfold sendErrorToClient, sendMessageToClient. destruct (connected (srv cn)); [reflexivity|].
  unfold queueMessage. rewrite decide_True by (unfold errorMessage, unqueued_types; simpl; set_solver).
  destruct (srv cn); reflexivity.
Qed.

Lemma signal_type_queued sg : toString (signalMessage sg !! "type") ∉ unqueued_types.
Proof.
  destruct sg; cbv [signalMessage showAuthDialogMessage authorizationResultMessage
    authorizationErrorMessage passwordRequestMessage];
  rewrite ?lookup_insert_ne by discriminate; rewrite lookup_insert_eq; simpl;
  unfold unqueued_types; set_solver.
Qed.

Lemma onSignal_send sg st : onSignal sg st = sendMessageToClient (signalMessage sg) st.
Proof. destruct sg; reflexivity. Qed.

Lemma deliver_offline sgs st :
  connected st = false -> length (m_pendingMessages st) + length sgs <= MAX_QUEUED_MESSAGES ->
  fold_left (fun st sg => onSignal sg st) sgs st = set_pending (m_pendingMessages st ++ map signalMessage sgs) st.
Proof.
  revert st. induction sgs as [|sg sgs IH]; intros st Hc Hl; simpl.
  - rewrite app_nil_r. destruct st; reflexivity.
  - simpl in Hl. rewrite onSignal_send. unfold sendMessageToClient. rewrite Hc.
    unfold queueMessage. rewrite decide_False by apply signal_type_queued.
    rewrite decide_False by (unfold MAX_QUEUED_MESSAGES in *; lia).
    rewrite IH; [|exact Hc|cbn; rewrite length_app; cbn; lia].
    cbn. rewrite <- app_assoc. reflexivity.
Qed.

(** X18: while no client is connected and the queue is empty, up to 50
    wrapper signals are queued in order; the next connection writes the
    welcome message with the incremented connection version and then the
    queued messages in order, empties the queue, and starts the session
    and heartbeat clocks at the connection time. *)
Lemma X_reconnect now sgs cn :
  m_currentClient cn = false -> connected (srv cn) = false -> m_pendingMessages (srv cn) = [] ->
  length sgs <= MAX_QUEUED_MESSAGES ->
  written (srv (onNewConnection now true (deliverSignals sgs cn)))
    = written (srv cn) ++ welcomeMessage (m_clientConnectionVersion cn + 1) :: map signalMessage sgs /\
  m_pendingMessages (srv (onNewConnection now true (deliverSignals sgs cn))) = [] /\
  m_currentClient (onNewConnection now true (deliverSignals sgs cn)) = true /\
  connected (srv (onNewConnection now true (deliverSignals sgs cn))) = true /\
  m_clientConnectionVersion (onNewConnection now true (deliverSignals sgs cn))
    = (m_clientConnectionVersion cn + 1)%Z /\
  m_sessionStartTime (srv (onNewConnection now true (deliverSignals sgs cn))) = now /\
  m_lastHeartbeat (srv (onNewConnection now true (deliverSignals sgs cn))) = now /\
  calls (srv (onNewConnection now true (deliverSignals sgs cn))) = calls (srv cn) /\
  disconnects (srv (onNewConnection now true (deliverSignals sgs cn))) = disconnects (srv cn).
Proof.
  intros Hcl Hc Hp Hl. unfold deliverSignals. rewrite deliver_offline by (auto; rewrite Hp; simpl; lia).
  unfold onNewConnection. simpl. rewrite Hcl, Hp. simpl.
  unfold replayQueuedMessages. simpl.
  destruct sgs as [|sg sgs]; simpl; repeat split; try reflexivity.
  all: rewrite <- ?app_assoc; reflexivity.
Qed.

Lemma X_reconnect_witness :
  m_currentClient idleConn = false /\ connected (srv idleConn) = false /\
  m_pendingMessages (srv idleConn) = [] /\ length offlineSignals <= MAX_QUEUED_MESSAGES /\
  written (srv (onNewConnection t0 true (deliverSignals offlineSignals idleConn))) =
    [welcomeMessage 1; authorizationResultMessage true "org.example.check";
     authorizationErrorMessage "denied"].
Proof.
  split; [reflexivity|]. split; [reflexivity|]. split; [reflexivity|].
  split; [unfold MAX_QUEUED_MESSAGES; simpl; lia|].
  destruct (X_reconnect t0 offlineSignals idleConn eq_refl eq_refl eq_refl
              ltac:(unfold MAX_QUEUED_MESSAGES; simpl; lia)) as [H _].
  rewrite H. reflexivity.
Defined.

End ServerFacts.
